(** * The router of vanilla-ui: a shallow embedding

    The module modelled is the routing part of [src/extra/http.ts], from
    [_abstractRoute] to [attachEvents]: path normalization, pattern
    compilation in [add], [match], [paramsFor], [queryFor] and the
    transition engine [change].

    JavaScript strings are modelled as lists of code units ([list ascii],
    code units 0..255).  Every string primitive the router calls
    ([String.prototype.replace], [split], [trim], the two slash-stripping
    regular expressions) is written out as a structurally recursive
    function with the behaviour the language gives it. *)

From Stdlib Require Import List Ascii String Bool Arith Lia.
Import ListNotations.

#[local] Arguments Ascii.eqb : simpl never.

(** ** String primitives *)

Module Str.

Definition str := list ascii.

(** A literal of the source, as a list of code units. *)
Definition js (s : string) : str := list_ascii_of_string s.

Definition slash : ascii := "/"%char.
Definition qmark : ascii := "?"%char.

Fixpoint eqb (a b : str) : bool :=
  match a, b with
  | [], [] => true
  | x :: a', y :: b' => Ascii.eqb x y && eqb a' b'
  | _, _ => false
  end.

(** [s.startsWith(pat)]. *)
Fixpoint is_prefix (pat s : str) : bool :=
  match pat, s with
  | [], _ => true
  | _ :: _, [] => false
  | x :: pat', y :: s' => Ascii.eqb x y && is_prefix pat' s'
  end.

(** [s.indexOf(pat) !== -1]. *)
Fixpoint occurs (pat s : str) : bool :=
  is_prefix pat s ||
  match s with
  | [] => false
  | _ :: s' => occurs pat s'
  end.

(** [s.replace(pat, rep)] for a string pattern [pat] and a replacement
    [rep] that holds no dollar sign: the leftmost occurrence of [pat] is
    replaced, an empty [pat] matches at index 0. *)
Fixpoint replace_first (pat rep s : str) : str :=
  if is_prefix pat s then rep ++ skipn (List.length pat) s
  else match s with
       | [] => []
       | c :: s' => c :: replace_first pat rep s'
       end.

(** [s.replace(new RegExp('[/]*$'), '')]: the leftmost match of the
    pattern starts where the final run of slashes starts, so that run is
    removed. *)
Fixpoint strip_trailing (s : str) : str :=
  match s with
  | [] => []
  | c :: s' =>
      match strip_trailing s' with
      | [] => if Ascii.eqb c slash then [] else [c]
      | r => c :: r
      end
  end.

(** [s.replace(new RegExp('^[/]*'), '')]: the run of slashes at index 0
    is removed. *)
Fixpoint strip_leading (s : str) : str :=
  match s with
  | [] => []
  | c :: s' => if Ascii.eqb c slash then strip_leading s' else s
  end.

(** [s.split(sep)] for a separator of one code unit; the empty string
    splits into one empty piece. *)
Fixpoint split (sep : ascii) (s : str) : list str :=
  match s with
  | [] => [[]]
  | c :: s' =>
      if Ascii.eqb c sep then [] :: split sep s'
      else match split sep s' with
           | [] => [[c]]
           | h :: t => (c :: h) :: t
           end
  end.

(** [pieces.join(sep)]. *)
Fixpoint join (sep : str) (l : list str) : str :=
  match l with
  | [] => []
  | [x] => x
  | x :: l' => x ++ sep ++ join sep l'
  end.

Definition starts_with (c : ascii) (s : str) : bool :=
  match s with
  | [] => false
  | x :: _ => Ascii.eqb x c
  end.

Fixpoint ends_with (c : ascii) (s : str) : bool :=
  match s with
  | [] => false
  | [x] => Ascii.eqb x c
  | _ :: t => ends_with c t
  end.

(** Two adjacent slashes somewhere in [s]. *)
Fixpoint dslash (s : str) : bool :=
  match s with
  | [] => false
  | a :: t => (Ascii.eqb a slash && starts_with slash t) || dslash t
  end.

(** A slash directly followed by a question mark somewhere in [s]. *)
Fixpoint slashq (s : str) : bool :=
  match s with
  | [] => false
  | a :: t => (Ascii.eqb a slash && starts_with qmark t) || slashq t
  end.

Definition has_q (s : str) : bool := existsb (fun c => Ascii.eqb c qmark) s.

(** [s.split('?')[0]]. *)
Definition takeq (s : str) : str := hd [] (split qmark s).

End Str.

Import Str.

(** ** Path normalizer *)

Module Path.

Section Normalize.

(** [window.location.origin] and [options.base]. *)
Variable origin : str.
Variable base : str.

Definition normalizePath (path : str) (removeQuery : bool) : str :=
  let path := replace_first origin [] path in
  let path := replace_first base [] path in
  let path := replace_first (js "/?") (js "?") path in
  let path := strip_trailing path in
  let path := strip_leading path in
  let path := replace_first (js "//") (js "/") (slash :: path) in
  if removeQuery then hd [] (split qmark path) else path.

End Normalize.

(** The third step, [path.replace('/?', '?')]. *)
Definition drop_slash_before_query (p : str) : str :=
  replace_first (js "/?") (js "?") p.

(** Steps three to seven, the part of [normalizePath] that does not read
    the environment. *)
Definition tidy (p : str) (removeQuery : bool) : str :=
  let p := drop_slash_before_query p in
  let p := strip_leading (strip_trailing p) in
  let p := replace_first (js "//") (js "/") (slash :: p) in
  if removeQuery then takeq p else p.

(** The shape of a result: a slash, then a body with no slash at either
    end and no double slash. *)
Definition tidy_body (b : str) : Prop :=
  starts_with slash b = false /\ ends_with slash b = false /\
  dslash b = false.

Definition body (p : str) : str :=
  strip_leading (strip_trailing (drop_slash_before_query p)).

(** A path segment: not empty, no slash, no question mark. *)
Definition segment (s : str) : Prop :=
  s <> [] /\ ~ In slash s /\ ~ In qmark s.

(** The string [/s1/s2/.../sn]. *)
Definition path_of (segs : list str) : str := List.concat (map (cons slash) segs).

End Path.

Import Path.

(** The origin used in the examples. *)
Definition demo_origin : str := js "http://localhost".

(** ** Pattern compiler *)

Module Pattern.

Definition colon : ascii := ":"%char.

(** The class [[a-zA-Z]]. *)
Definition is_letter (c : ascii) : bool :=
  let n := nat_of_ascii c in
  ((65 <=? n) && (n <=? 90)) || ((97 <=? n) && (n <=? 122)).

Definition starts_with_letter (s : str) : bool :=
  match s with
  | [] => false
  | c :: _ => is_letter c
  end.

(** The replacement text of [add], the source of one capture group. *)
Definition group_source : str := js "([^/]+)".

(** [regex.replace(new RegExp('(:[a-zA-Z]+)', 'g'), '([^/]+)')]: every
    colon that is followed by a letter is replaced, together with all the
    letters after it, by the group source.  [in_name] says that the
    previous code unit belonged to such a match, whose letters are still
    being consumed. *)
Fixpoint replace_params (in_name : bool) (s : str) : str :=
  match s with
  | [] => []
  | c :: t =>
      if in_name && is_letter c then replace_params true t
      else if Ascii.eqb c colon && starts_with_letter t
           then group_source ++ replace_params true t
           else c :: replace_params false t
  end.

(** The text handed to [new RegExp(..., 'i')]. *)
Definition regex_source (path : str) : str :=
  js "^" ++ replace_params false path ++ js "$".

(** The regular expressions of the modelled fragment: a sequence of
    literal code units, dots and [([^/]+)] groups between [^] and [$]. *)
Inductive item : Type :=
| Lit (c : ascii)
| Any
| Group.

Definition is_meta (c : ascii) : bool :=
  existsb (Ascii.eqb c) (js "^$\.*+?()[]{}|").

(** A pattern character that stands for itself: an ASCII code unit that
    is no syntax character. *)
Definition plain (c : ascii) : bool :=
  (nat_of_ascii c <? 128) && negb (is_meta c).

(** Reading a source text.  [skip] counts the code units of a group
    source still to be passed over.  [None]: the text is outside the
    fragment (the engine may accept it with another meaning, or throw). *)
Fixpoint parse_items (skip : nat) (s : str) : option (list item) :=
  match s with
  | [] => None
  | c :: t =>
      match skip with
      | S k => parse_items k t
      | O =>
          if Ascii.eqb c "$" then
            match t with [] => Some [] | _ => None end
          else if Ascii.eqb c "(" then
            if is_prefix (js "[^/]+)") t
            then option_map (cons Group) (parse_items 6 t)
            else None
          else if Ascii.eqb c "." then option_map (cons Any) (parse_items 0 t)
          else if plain c then option_map (cons (Lit c)) (parse_items 0 t)
          else None
      end
  end.

(** [new RegExp(source, 'i')] on the fragment. *)
Definition RegExp (source : str) : option (list item) :=
  match source with
  | c :: t => if Ascii.eqb c "^" then parse_items 0 t else None
  | [] => None
  end.

(** Case folding of the [i] flag: both code units are upper-cased; only
    [a-z] change among the code units below 128, and no code unit above
    folds onto one below. *)
Definition upper (c : ascii) : ascii :=
  let n := nat_of_ascii c in
  if (97 <=? n) && (n <=? 122) then ascii_of_nat (n - 32) else c.

Definition ci_eqb (a b : ascii) : bool := Ascii.eqb (upper a) (upper b).

Definition line_terminator (c : ascii) : bool :=
  Ascii.eqb c "010" || Ascii.eqb c "013".

(** One or more code units other than a slash, then the rest of the
    pattern: the group [([^/]+)] with backtracking. *)
Fixpoint group_then (rest : str -> bool) (s : str) : bool :=
  match s with
  | [] => false
  | x :: s' => negb (Ascii.eqb x slash) && (rest s' || group_then rest s')
  end.

(** [regex.test(s)] for the anchored pattern [^items$]. *)
Fixpoint matches (p : list item) : str -> bool :=
  match p with
  | [] => fun s => match s with [] => true | _ => false end
  | Lit c :: p' =>
      fun s => match s with
               | [] => false
               | x :: s' => ci_eqb c x && matches p' s'
               end
  | Any :: p' =>
      fun s => match s with
               | [] => false
               | x :: s' => negb (line_terminator x) && matches p' s'
               end
  | Group :: p' => group_then (matches p')
  end.

End Pattern.

Import Pattern.

(** ** Segment-wise reading of a pattern *)

Module Segments.

Definition is_nil (s : str) : bool :=
  match s with [] => true | _ => false end.

(** [s.split('/').filter(Boolean).length], the way [paramsFor] counts
    the segments of a path. *)
Definition segment_count (s : str) : nat :=
  List.length (filter (fun p => negb (is_nil p)) (split slash s)).

(** The pattern items [add] produces for a template of plain characters,
    read off the template directly. *)
Fixpoint items_of (in_name : bool) (s : str) : list item :=
  match s with
  | [] => []
  | c :: t =>
      if in_name && is_letter c then items_of true t
      else if Ascii.eqb c colon && starts_with_letter t
           then Group :: items_of true t
           else Lit c :: items_of false t
  end.

(** Number of places where a segment starts: a code unit other than a
    slash that follows a slash (or the start, when [prev] is set). *)
Fixpoint seg_starts (prev : bool) (s : str) : nat :=
  match s with
  | [] => 0
  | c :: t =>
      if Ascii.eqb c slash then seg_starts true t
      else (if prev then 1 else 0) + seg_starts false t
  end.

Definition item_is_slash (i : item) : bool :=
  match i with Lit c => Ascii.eqb c slash | _ => false end.

Fixpoint item_starts (prev : bool) (p : list item) : nat :=
  match p with
  | [] => 0
  | i :: p' =>
      if item_is_slash i then item_starts true p'
      else (if prev then 1 else 0) + item_starts false p'
  end.

Definition no_any (p : list item) : bool :=
  forallb (fun i => match i with Any => false | _ => true end) p.

Definition no_slash (s : str) : bool :=
  forallb (fun c => negb (Ascii.eqb c slash)) s.

(** The matcher as the specification words it: template and candidate
    are split at the slashes, the segment counts must agree, a template
    segment beginning with a colon accepts any one non-empty segment, any
    other segment accepts itself, letter case ignored. *)
Fixpoint ci_str_eqb (a b : str) : bool :=
  match a, b with
  | [], [] => true
  | x :: a', y :: b' => ci_eqb x y && ci_str_eqb a' b'
  | _, _ => false
  end.

Definition spec_segment_matches (tseg useg : str) : bool :=
  if starts_with colon tseg then negb (is_nil useg) else ci_str_eqb tseg useg.

Fixpoint all2 {A B : Type} (f : A -> B -> bool) (l : list A) (m : list B) : bool :=
  match l, m with
  | [], [] => true
  | x :: l', y :: m' => f x y && all2 f l' m'
  | _, _ => false
  end.

Definition spec_matches (template candidate : str) : bool :=
  all2 spec_segment_matches (split slash template) (split slash candidate).

(** Template segments on which code and specification agree: a colon
    followed by one or more letters, or plain characters without a
    colon. *)
Definition lit_char (c : ascii) : bool :=
  plain c && negb (Ascii.eqb c colon) && negb (Ascii.eqb c slash).

Definition simple_segment (seg : str) : bool :=
  match seg with
  | [] => true
  | c :: name =>
      if Ascii.eqb c colon
      then negb (is_nil name) && forallb is_letter name
      else forallb lit_char seg
  end.

Definition seg_items (seg : str) : list item :=
  if starts_with colon seg then [Group] else map Lit seg.

End Segments.

Import Segments.

(** ** Objects used as maps *)

Module Obj.

(** The own properties of an object literal, in insertion order. *)
Definition t (V : Type) : Type := list (str * V).

Fixpoint own {V : Type} (key : str) (o : t V) : option V :=
  match o with
  | [] => None
  | (k, v) :: o' => if Str.eqb k key then Some v else own key o'
  end.

(** The property names every object literal inherits from
    [Object.prototype]. *)
Definition prototype_keys : list str :=
  map js ["constructor"; "__defineGetter__"; "__defineSetter__";
          "hasOwnProperty"; "__lookupGetter__"; "__lookupSetter__";
          "isPrototypeOf"; "propertyIsEnumerable"; "toString"; "valueOf";
          "__proto__"; "toLocaleString"]%string.

Definition inherited (key : str) : bool := existsb (Str.eqb key) prototype_keys.

(** [o[key] === undefined], for an object whose own values are never
    [undefined]: the key is neither an own property nor inherited. *)
Definition is_undefined {V : Type} (key : str) (o : t V) : bool :=
  match own key o with
  | Some _ => false
  | None => negb (inherited key)
  end.

Fixpoint update {V : Type} (key : str) (v : V) (o : t V) : t V :=
  match o with
  | [] => [(key, v)]
  | (k, w) :: o' =>
      if Str.eqb k key then (k, v) :: o' else (k, w) :: update key v o'
  end.

(** [o[key] = v] for a string [v]: an own property is written, except
    that the inherited [__proto__] setter ignores a string. *)
Definition set {V : Type} (key : str) (v : V) (o : t V) : t V :=
  if Str.eqb key (js "__proto__") then o else update key v o.

End Obj.

(** ** Query and parameter extraction *)

Module Extract.

Section Decode.

(** [decodeURIComponent]; [None] when it throws [URIError]. *)
Variable decodeURIComponent : str -> option str.

(** White space removed by [String.prototype.trim], among the code
    units below 256. *)
Definition is_space (c : ascii) : bool :=
  existsb (Nat.eqb (nat_of_ascii c)) [9; 10; 11; 12; 13; 32; 160].

Fixpoint drop_spaces (s : str) : str :=
  match s with
  | [] => []
  | c :: s' => if is_space c then drop_spaces s' else s
  end.

Definition trim (s : str) : str :=
  rev (drop_spaces (rev (drop_spaces s))).

(** [s.replace(/^(\?|#|&)/, '')]. *)
Definition drop_lead (s : str) : str :=
  match s with
  | c :: s' =>
      if Ascii.eqb c "?" || Ascii.eqb c "#" || Ascii.eqb c "&" then s' else s
  | [] => []
  end.

(** [param.replace(/\+/g, ' ')]. *)
Definition plus_to_space (s : str) : str :=
  map (fun c => if Ascii.eqb c "+" then " "%char else c) s.

(** The body of the [forEach] callback of [queryFor]. *)
Definition query_step (query : Obj.t (option str)) (param : str)
  : option (Obj.t (option str)) :=
  let parts := split "=" (plus_to_space param) in
  match decodeURIComponent (hd [] parts) with
  | None => None
  | Some key =>
      let parts := tl parts in
      let value :=
        match parts with
        | [] => Some None
        | _ => option_map Some (decodeURIComponent (join (js "=") parts))
        end in
      match value with
      | None => None
      | Some value =>
          Some (if Obj.is_undefined key query
                then query ++ [(key, value)] else query)
      end
  end.

Fixpoint query_loop (query : Obj.t (option str)) (params : list str)
  : option (Obj.t (option str)) :=
  match params with
  | [] => Some query
  | param :: rest =>
      match query_step query param with
      | None => None
      | Some query' => query_loop query' rest
      end
  end.

Definition queryFor (location : str) : option (Obj.t (option str)) :=
  let search :=
    if has_q location then nth 1 (split qmark location) [] else [] in
  let search := drop_lead (trim search) in
  if is_nil search then Some []
  else query_loop [] (split "&" search).

(** The part of the location [queryFor] reads, as computed in its
    first two statements. *)
Definition search_of (location : str) : str :=
  drop_lead (trim (if has_q location
                   then nth 1 (split qmark location) [] else [])).

(** The decoded key and value of one [key=value] piece. *)
Definition pair_of (param : str) : option (str * option str) :=
  let parts := split "=" (plus_to_space param) in
  match decodeURIComponent (hd [] parts) with
  | None => None
  | Some key =>
      match tl parts with
      | [] => Some (key, None)
      | rest =>
          match decodeURIComponent (join (js "=") rest) with
          | None => None
          | Some v => Some (key, Some v)
          end
      end
  end.

Fixpoint decoded_pairs (params : list str)
  : option (list (str * option str)) :=
  match params with
  | [] => Some []
  | p :: rest =>
      match pair_of p, decoded_pairs rest with
      | Some kv, Some l => Some (kv :: l)
      | _, _ => None
      end
  end.

Section Params.

Variable origin : str.
Variable base : str.

Definition path_segments (path : str) : list str :=
  filter (fun p => negb (is_nil p))
         (split slash (normalizePath origin base path true)).

(** The [forEach] of [paramsFor]: [parts] and [url] are walked in
    step; once [parts] runs out, [parts[index]] is undefined. *)
Fixpoint params_loop (parts url : list str) (params : Obj.t str)
  : option (Obj.t str) :=
  match url, parts with
  | [], _ => Some params
  | _ :: _, [] => Some params
  | value :: url', part :: parts' =>
      if starts_with colon part then
        match decodeURIComponent value with
        | None => None
        | Some v => params_loop parts' url' (Obj.set (tl part) v params)
        end
      else params_loop parts' url' params
  end.

Definition paramsFor (path : str) (match_path : str) : option (Obj.t str) :=
  params_loop (path_segments match_path) (path_segments path) [].

End Params.

End Decode.

End Extract.

Import Extract.

(** ** Route table and transition engine *)

Module Router.

Record Route : Type := {
  path : str;
  regex : list item;
  _query : Obj.t (option str);
  _params : Obj.t str
}.

(** The object a route variable points to: the shared [_abstractRoute],
    or the entry of [_routes] at an index. *)
Inductive Ref : Type :=
| AbstractRoute
| RouteAt (index : nat).

Inductive Mode : Type := history | hash.

Record Options : Type := {
  mode : Mode;
  base : str;
  prevent : bool
}.

(** The [change] object handed to the callbacks as [this]. *)
Record Transition : Type := {
  previous : option Ref;
  next : option nat;
  location : str;
  replace : bool
}.

Section Engine.

(** Values that are thrown, the application state the callbacks work
    on, and the state of the browser. *)
Variables Exn App Browser : Type.

(** The host: [window.location.origin], [decodeURIComponent] and the
    [URIError] it throws, [history.pushState] and the assignment to
    [window.location.hash] (each may throw), [window.location.href]
    and [window.location.hash]. *)
Variable origin : str.
Variable decodeURIComponent : str -> option str.
Variable URIError : Exn.
Variable pushState : str -> Browser -> Exn + Browser.
Variable setHash : str -> Browser -> Exn + Browser.
Variable location_href : Browser -> str.
Variable location_hash : Browser -> str.

(** A callback awaited by [change]: it returns (or its promise
    fulfils), or it throws (or its promise rejects).  It sees the
    transition, the route table and the active route, and works on the
    application state; it does not call back into the router. *)
Inductive HookResult : Type :=
| Returned (a : App)
| Threw (a : App) (e : Exn).

Definition Hook : Type :=
  Transition -> list Route -> option Ref -> App -> HookResult.

(** What an observer sees of one run: the callbacks of [_after] that
    were applied, by index, and the call of [routeChange]. *)
Inductive Event : Type :=
| Invoked (index : nat) (t : Transition)
| Commit (t : Transition).

Record State : Type := {
  _routes : list Route;
  _before : list Hook;
  _after : list Hook;
  _active : option Ref;
  options : Options;
  browser : Browser;
  world : App;
  console : list Exn;
  log : list Event
}.

(** The promise returned by an async function. *)
Inductive Outcome : Type :=
| Fulfilled
| Rejected (e : Exn).

Definition with_routes (r : list Route) (s : State) : State :=
  {| _routes := r; _before := _before s; _after := _after s;
     _active := _active s; options := options s; browser := browser s;
     world := world s; console := console s; log := log s |}.

Definition with_before (h : list Hook) (s : State) : State :=
  {| _routes := _routes s; _before := h; _after := _after s;
     _active := _active s; options := options s; browser := browser s;
     world := world s; console := console s; log := log s |}.

Definition with_after (h : list Hook) (s : State) : State :=
  {| _routes := _routes s; _before := _before s; _after := h;
     _active := _active s; options := options s; browser := browser s;
     world := world s; console := console s; log := log s |}.

Definition with_active (a : option Ref) (s : State) : State :=
  {| _routes := _routes s; _before := _before s; _after := _after s;
     _active := a; options := options s; browser := browser s;
     world := world s; console := console s; log := log s |}.

Definition with_options (o : Options) (s : State) : State :=
  {| _routes := _routes s; _before := _before s; _after := _after s;
     _active := _active s; options := o; browser := browser s;
     world := world s; console := console s; log := log s |}.

Definition with_browser (b : Browser) (s : State) : State :=
  {| _routes := _routes s; _before := _before s; _after := _after s;
     _active := _active s; options := options s; browser := b;
     world := world s; console := console s; log := log s |}.

Definition with_world (a : App) (s : State) : State :=
  {| _routes := _routes s; _before := _before s; _after := _after s;
     _active := _active s; options := options s; browser := browser s;
     world := a; console := console s; log := log s |}.

Definition warn (e : Exn) (s : State) : State :=
  {| _routes := _routes s; _before := _before s; _after := _after s;
     _active := _active s; options := options s; browser := browser s;
     world := world s; console := console s ++ [e]; log := log s |}.

Definition record (ev : Event) (s : State) : State :=
  {| _routes := _routes s; _before := _before s; _after := _after s;
     _active := _active s; options := options s; browser := browser s;
     world := world s; console := console s; log := log s ++ [ev] |}.

Definition set_prevent (p : bool) (s : State) : State :=
  with_options {| mode := mode (options s); base := base (options s);
                  prevent := p |} s.

(** [add]: the definition is modelled by its [path].  [None]: the
    pattern source is outside the modelled fragment. *)
Definition new_route (base : str) (definition_path : str) : option Route :=
  let path := normalizePath origin base definition_path true in
  match RegExp (regex_source path) with
  | Some re => Some {| path := path; regex := re; _query := []; _params := [] |}
  | None => None
  end.

Definition add (definition_path : str) (s : State) : option State :=
  match new_route (base (options s)) definition_path with
  | Some route => Some (with_routes (_routes s ++ [route]) s)
  | None => None
  end.

Definition beforeChange (callback : Hook) (s : State) : State :=
  with_before (_before s ++ [callback]) s.

Definition afterChange (callback : Hook) (s : State) : State :=
  with_after (_after s ++ [callback]) s.

(** The loop of [match]: the index of the first route whose pattern
    accepts [url]. *)
Fixpoint match_from (url : str) (routes : list Route) (index : nat)
  : option nat :=
  match routes with
  | [] => None
  | item :: rest =>
      if matches (regex item) url then Some index
      else match_from url rest (S index)
  end.

Definition match_ (path : str) (s : State) : option nat :=
  match_from (normalizePath origin (base (options s)) path true)
             (_routes s) 0.

Definition active (s : State) : option Ref := _active s.

(** [next._query = query; next._params = params] on the route object
    at [index]. *)
Fixpoint set_snapshot (index : nat) (q : Obj.t (option str))
  (p : Obj.t str) (routes : list Route) : list Route :=
  match routes, index with
  | [], _ => []
  | r :: rest, O =>
      {| path := path r; regex := regex r; _query := q; _params := p |} :: rest
  | r :: rest, S i => r :: set_snapshot i q p rest
  end.

(** The inner function [routeChange]; the exception, if any, comes
    with the state reached when it was thrown. *)
Definition routeChange (t : Transition) (s : State) : State * option Exn :=
  let written :=
    if replace t then
      let s := set_prevent true s in
      match (match mode (options s) with
             | history => pushState (location t) (browser s)
             | hash => setHash (location t) (browser s)
             end) with
      | inl e => (s, Some e)
      | inr b => (set_prevent false (with_browser b s), None)
      end
    else (s, None) in
  match written with
  | (s, Some e) => (s, Some e)
  | (s, None) =>
      match next t with
      | None => (with_active None s, None)
      | Some index =>
          match queryFor decodeURIComponent (location t) with
          | None => (s, Some URIError)
          | Some query =>
              match paramsFor decodeURIComponent origin (base (options s))
                      (location t)
                      (path (nth index (_routes s)
                               {| path := []; regex := [];
                                  _query := []; _params := [] |})) with
              | None => (s, Some URIError)
              | Some params =>
                  (with_active (Some (RouteAt index))
                     (with_routes
                        (set_snapshot index query params (_routes s)) s),
                   None)
              end
          end
      end
  end.

(** One [for ... of] loop of [change] over the callbacks from [index]
    on: each is applied and awaited; the first failure ends the loop
    with its exception. *)
Fixpoint run_callbacks (callbacks : list Hook) (index : nat)
  (t : Transition) (s : State) : State * option Exn :=
  match callbacks with
  | [] => (s, None)
  | callback :: rest =>
      let s := record (Invoked index t) s in
      match callback t (_routes s) (_active s) (world s) with
      | Threw a e => (with_world a s, Some e)
      | Returned a => run_callbacks rest (S index) t (with_world a s)
      end
  end.

Definition make_transition (location : str) (replace : bool) (s : State)
  : Transition :=
  let location := normalizePath origin (base (options s)) location false in
  {| previous := _active s; next := match_ location s;
     location := location; replace := replace |}.

(** [change]: both loops walk [_after]; a failing callback makes the
    function return a rejected promise, which the outer [catch] does
    not see; an exception of [routeChange] reaches the outer [catch]
    and is logged.  One call is run to its end: what the event loop
    may interleave at an [await] is not modelled. *)
Definition change (location : str) (replace : bool) (s : State)
  : State * Outcome :=
  let t := make_transition location replace s in
  match run_callbacks (_after s) 0 t s with
  | (s, Some e) => (s, Rejected e)
  | (s, None) =>
      match routeChange t (record (Commit t) s) with
      | (s, Some e) => (warn e s, Fulfilled)
      | (s, None) =>
          match run_callbacks (_after s) 0 t s with
          | (s, Some e) => (s, Rejected e)
          | (s, None) => (s, Fulfilled)
          end
      end
  end.

Definition redirect (toLocation : str) (s : State) : State * Outcome :=
  change toLocation true s.

(** [onPopState]; [None] when the handler returns without a promise. *)
Definition onPopState (s : State) : State * option Outcome :=
  if prevent (options s) then (s, None)
  else
    let (s', o) :=
      change (match mode (options s) with
              | hash => replace_first (js "#") [] (location_hash (browser s))
              | history => location_href (browser s)
              end) false s in
    (s', Some o).

(** Two states that agree on everything the callbacks cannot touch. *)
Definition same_router (s s' : State) : Prop :=
  _routes s' = _routes s /\ _before s' = _before s /\
  _after s' = _after s /\ _active s' = _active s /\
  options s' = options s /\ browser s' = browser s /\
  console s' = console s.

(** The events of one loop over [n] callbacks, from index [i] on. *)
Definition invocations (i n : nat) (t : Transition) : list Event :=
  map (fun k => Invoked k t) (seq i n).

Definition never_throws (h : Hook) : Prop :=
  forall t rs act a, exists a', h t rs act a = Returned a'.

(** The module as loaded. *)
Definition initial (m : Mode) (b : Browser) (a : App) : State :=
  {| _routes := []; _before := []; _after := [];
     _active := Some AbstractRoute;
     options := {| mode := m; base := []; prevent := false |};
     browser := b; world := a; console := []; log := [] |}.

(** What the application and the browser can do to the module.  A
    definition whose pattern is outside the modelled fragment is not
    registered. *)
Inductive Call : Type :=
| CallAdd (definition_path : str)
| CallBeforeChange (callback : Hook)
| CallAfterChange (callback : Hook)
| CallRedirect (toLocation : str)
| PopState
| SetMode (m : Mode)
| SetBase (b : str).

Definition perform (c : Call) (s : State) : State :=
  match c with
  | CallAdd p => match add p s with Some s' => s' | None => s end
  | CallBeforeChange h => beforeChange h s
  | CallAfterChange h => afterChange h s
  | CallRedirect l => fst (redirect l s)
  | PopState => fst (onPopState s)
  | SetMode m =>
      with_options {| mode := m; base := base (options s);
                      prevent := prevent (options s) |} s
  | SetBase b =>
      with_options {| mode := mode (options s); base := b;
                      prevent := prevent (options s) |} s
  end.

Inductive reachable (m : Mode) (b : Browser) (a : App) : State -> Prop :=
| reach_initial : reachable m b a (initial m b a)
| reach_call c s : reachable m b a s -> reachable m b a (perform c s).

End Engine.

Arguments Returned {Exn App} a.
Arguments Threw {Exn App} a e.
Arguments Fulfilled {Exn}.
Arguments Rejected {Exn} e.
Arguments initial Exn {App Browser} m b a.
Arguments same_router {Exn App Browser} s s'.
Arguments CallAdd {Exn App} definition_path.
Arguments CallBeforeChange {Exn App} callback.
Arguments CallAfterChange {Exn App} callback.
Arguments CallRedirect {Exn App} toLocation.
Arguments PopState {Exn App}.
Arguments SetMode {Exn App} m.
Arguments SetBase {Exn App} b.
Arguments reach_initial {Exn App Browser origin decodeURIComponent URIError
  pushState setHash location_href location_hash m b a}.
Arguments reach_call {Exn App Browser origin decodeURIComponent URIError
  pushState setHash location_href location_hash m b a} c {s} _.
Arguments never_throws {Exn App} h.
Arguments with_routes {Exn App Browser} r s.
Arguments with_before {Exn App Browser} h s.
Arguments with_after {Exn App Browser} h s.
Arguments with_active {Exn App Browser} a s.
Arguments with_options {Exn App Browser} o s.
Arguments with_browser {Exn App Browser} b s.
Arguments with_world {Exn App Browser} a s.
Arguments warn {Exn App Browser} e s.
Arguments record {Exn App Browser} ev s.
Arguments set_prevent {Exn App Browser} p s.
Arguments _routes {Exn App Browser} s.
Arguments _before {Exn App Browser} s.
Arguments _after {Exn App Browser} s.
Arguments _active {Exn App Browser} s.
Arguments options {Exn App Browser} s.
Arguments browser {Exn App Browser} s.
Arguments world {Exn App Browser} s.
Arguments console {Exn App Browser} s.
Arguments log {Exn App Browser} s.
Arguments add {Exn App Browser} origin definition_path s.
Arguments beforeChange {Exn App Browser} callback s.
Arguments afterChange {Exn App Browser} callback s.
Arguments match_ {Exn App Browser} origin path s.
Arguments make_transition {Exn App Browser} origin location replace s.
Arguments routeChange {Exn App Browser} origin decodeURIComponent URIError
  pushState setHash t s.
Arguments run_callbacks {Exn App Browser} callbacks index t s.
Arguments change {Exn App Browser} origin decodeURIComponent URIError
  pushState setHash location replace s.
Arguments redirect {Exn App Browser} origin decodeURIComponent URIError
  pushState setHash toLocation s.
Arguments onPopState {Exn App Browser} origin decodeURIComponent URIError
  pushState setHash location_href location_hash s.
Arguments perform {Exn App Browser} origin decodeURIComponent URIError
  pushState setHash location_href location_hash c s.
Arguments reachable {Exn App Browser} origin decodeURIComponent URIError
  pushState setHash location_href location_hash m b a _.

End Router.

Import Router.

(** ** A small host for the examples *)

Module Demo.

Definition percent_free (s : str) : bool :=
  forallb (fun c => negb (Ascii.eqb c "%")) s.

(** A stand-in for [decodeURIComponent]: the identity on strings without
    a percent sign, a [URIError] on the others. *)
Definition decode (s : str) : option str :=
  if percent_free s then Some s else None.

(** The browser is the list of written locations; no write throws.
    Exceptions are numbers, the application state is a list of marks. *)
Definition write (l : str) (b : list str) : nat + list str := inr (b ++ [l]).

Definition href (b : list str) : str := last b (js "/").

Definition State := Router.State nat (list nat) (list str).
Definition Hook := Router.Hook nat (list nat).

Definition start : State := initial nat history [] [].

Definition change : str -> bool -> State -> State * Outcome nat :=
  Router.change demo_origin decode 0 write write.
Definition add : str -> State -> option State := Router.add demo_origin.

(** Callbacks: one leaves a mark, one throws. *)
Definition mark (n : nat) : Hook := fun _ _ _ a => Returned (a ++ [n]).
Definition fail (e : nat) : Hook := fun _ _ _ a => Threw a e.

Definition with_route (p : string) (s : State) : State :=
  match add (js p) s with Some s' => s' | None => s end.

End Demo.

(** ** Reading parameters position by position *)

Module Captures.

(** The pairs [paramsFor] walks: for every position held by both lists,
    the name behind the colon of a template segment that starts with one,
    and the location segment at that position, in order. *)
Fixpoint captures (parts url : list str) : list (str * str) :=
  match url, parts with
  | value :: url', part :: parts' =>
      if starts_with colon part then (tl part, value) :: captures parts' url'
      else captures parts' url'
  | _, _ => []
  end.

Definition proto : str := js "__proto__".

End Captures.

Import Captures.

(** ** The accessors of a route *)

From Stdlib Require Import NArith.

Module Accessors.

(** What reading [o[name]] on an object literal gives: an own value, a
    member inherited from [Object.prototype], or [undefined]. *)
Inductive Read (V : Type) : Type :=
| Own (v : V)
| Inherited
| Undefined.

Arguments Own {V} v.
Arguments Inherited {V}.
Arguments Undefined {V}.

Definition get {V : Type} (name : str) (o : Obj.t V) : Read V :=
  match Obj.own name o with
  | Some v => Own v
  | None => if Obj.inherited name then Inherited else Undefined
  end.

(** [param(name)] and [query(name)]: the whole mapping without a name,
    otherwise [this._params[name]], which is returned when it is not
    [undefined] and is [undefined] otherwise. *)
Definition param (r : Route) (name : option str) : Obj.t str + Read str :=
  match name with
  | None => inl (_params r)
  | Some n => inr (get n (_params r))
  end.

Definition query (r : Route) (name : option str)
  : Obj.t (option str) + Read (option str) :=
  match name with
  | None => inl (_query r)
  | Some n => inr (get n (_query r))
  end.

(** Array indices, the keys a [for ... in] loop visits first: the
    canonical decimal numerals below [2^32 - 1]. *)
Definition digit (c : ascii) : option N :=
  let n := nat_of_ascii c in
  if (48 <=? n) && (n <=? 57) then Some (N.of_nat (n - 48)) else None.

Fixpoint numeral (acc : N) (s : str) : option N :=
  match s with
  | [] => Some acc
  | c :: s' =>
      match digit c with
      | Some d => numeral (acc * 10 + d) s'
      | None => None
      end
  end.

Definition array_index (key : str) : option N :=
  match key with
  | [] => None
  | c :: rest =>
      if Ascii.eqb c "0" && negb (is_nil rest) then None
      else match numeral 0 key with
           | Some n => if (n <? 4294967295)%N then Some n else None
           | None => None
           end
  end.

Fixpoint insert_index {V : Type} (n : N) (kv : str * V)
  (l : list (N * (str * V))) : list (N * (str * V)) :=
  match l with
  | [] => [(n, kv)]
  | (m, x) :: l' =>
      if (n <? m)%N then (n, kv) :: l else (m, x) :: insert_index n kv l'
  end.

(** The own properties in the order of [for ... in]: array indices in
    ascending order, then the other keys in insertion order. *)
Definition enumeration {V : Type} (o : Obj.t V) : list (str * V) :=
  map snd
      (fold_left (fun acc kv =>
                    match array_index (fst kv) with
                    | Some n => insert_index n kv acc
                    | None => acc
                    end) o [])
  ++ filter (fun kv => match array_index (fst kv) with
                       | Some _ => false
                       | None => true
                       end) o.

(** The replacement text of [String.prototype.replace] for a string
    pattern: [$$] is a dollar sign, [$&] the matched text, [$`] and [$']
    the text before and after the match; any other dollar sign stands for
    itself. *)
Fixpoint substitute (matched before after rep : str) : str :=
  match rep with
  | [] => []
  | c :: r =>
      if Ascii.eqb c "$" then
        match r with
        | [] => [c]
        | d :: r' =>
            if Ascii.eqb d "$" then d :: substitute matched before after r'
            else if Ascii.eqb d "&"
                 then matched ++ substitute matched before after r'
            else if Ascii.eqb d "`"
                 then before ++ substitute matched before after r'
            else if Ascii.eqb d "'"
                 then after ++ substitute matched before after r'
            else c :: substitute matched before after r
        end
      else c :: substitute matched before after r
  end.

(** [s.replace(pat, rep)] for a string pattern and any replacement;
    [seen] holds, reversed, the text already passed. *)
Fixpoint replace_text (pat rep seen s : str) : str :=
  if is_prefix pat s
  then substitute pat (rev seen) (skipn (List.length pat) s) rep
       ++ skipn (List.length pat) s
  else match s with
       | [] => []
       | c :: s' => c :: replace_text pat rep (c :: seen) s'
       end.

(** [location()]: every own key, in [for ... in] order, replaces the
    first [:key] of the text so far by its value.  [None]: the call
    [params.hasOwnProperty(key)] throws a [TypeError], because the
    parameters hold an own string called [hasOwnProperty]. *)
Definition location (r : Route) : option str :=
  match enumeration (_params r) with
  | [] => Some (path r)
  | keys =>
      match Obj.own (js "hasOwnProperty") (_params r) with
      | Some _ => None
      | None =>
          Some (fold_left (fun loc kv =>
                             replace_text (colon :: fst kv) (snd kv) [] loc)
                          keys (path r))
      end
  end.

(** The template segments with the captures replaced, in order, by the
    given values. *)
Fixpoint fill (segs vals : list str) : list str :=
  match segs with
  | [] => []
  | s :: segs' =>
      if starts_with colon s then
        match vals with
        | v :: vals' => v :: fill segs' vals'
        | [] => s :: fill segs' []
        end
      else s :: fill segs' vals
  end.

Definition capture_names (segs : list str) : list str :=
  map (@tl ascii) (filter (starts_with colon) segs).

(** A value that [location()] inserts as it is: no colon, no dollar
    sign. *)
Definition inert (v : str) : bool :=
  forallb (fun c => negb (Ascii.eqb c colon) && negb (Ascii.eqb c "$")) v.

Definition no_colon (s : str) : bool :=
  forallb (fun c => negb (Ascii.eqb c colon)) s.

End Accessors.

(** ** HTTP requests *)

Module Http.

(** [data]: undefined, null, a string, a [FormData], or an object with
    string values. *)
Inductive Data (FormData : Type) : Type :=
| DUndefined
| DNull
| DString (s : str)
| DForm (f : FormData)
| DObject (o : Obj.t str).

(** [headers]: undefined, null, or an object known by its own
    properties. *)
Inductive Headers : Type :=
| HUndefined
| HNull
| HObject (o : Obj.t str).

(** [body]: undefined, null, a string, or a [FormData]. *)
Inductive Body (FormData : Type) : Type :=
| BUndefined
| BNull
| BString (s : str)
| BForm (f : FormData).

Arguments DUndefined {FormData}.
Arguments DNull {FormData}.
Arguments DString {FormData} s.
Arguments DForm {FormData} f.
Arguments DObject {FormData} o.
Arguments BUndefined {FormData}.
Arguments BNull {FormData}.
Arguments BString {FormData} s.
Arguments BForm {FormData} f.

Section Request.

(** Values that are thrown, the state the interceptors and the network
    work on, [FormData] objects, parsed JSON values (known by their
    identity), responses, and the members of a request besides
    [method], [url], [data], [headers] and [body]. *)
Variables Exn World FormData Json Response Init : Type.

(** The host: the [TypeError] of a property write on undefined or
    null, the request members no one has set, [encodeURIComponent],
    the text of [JSON.stringify] for a value other than undefined,
    [JSON.parse] ([None] when it throws), and [response.ok]. *)
Variable TypeError : Exn.
Variable no_init : Init.
Variable encodeURIComponent : str -> str.
Variable JSON_stringify : Data FormData -> str.
Variable JSON_parse : str -> option Json.
Variable ok : Response -> bool.

(** The [request] object; [body] and [init] are what the interceptors
    may have added to it. *)
Record RequestObject : Type := {
  method : str;
  url : str;
  data : Data FormData;
  headers : Headers;
  body : Body FormData;
  init : Init
}.

(** The second argument of [fetch]: a copy of the request without
    [url] and [data]. *)
Record FetchOptions : Type := {
  fetch_method : str;
  fetch_headers : Headers;
  fetch_body : Body FormData;
  fetch_init : Init
}.

(** The body of a response: its text, or the value parsed from it. *)
Inductive Payload : Type :=
| Text (t : str)
| Parsed (j : Json).

Record Details : Type := {
  details_request : RequestObject;
  details_response : Response;
  details_body : Payload
}.

(** What is awaited settles with a value or throws. *)
Inductive Awaited (A : Type) : Type :=
| Settled (w : World) (a : A)
| Thrown (w : World) (e : Exn).

Arguments Settled {A} w a.
Arguments Thrown {A} w e.

(** An interceptor is applied to the request, or to the details, as
    [this], and may change it; it does not register interceptors. *)
Definition Before : Type := RequestObject -> World -> Awaited RequestObject.
Definition After : Type := Details -> World -> Awaited Details.

(** [fetch] and [response.text()]. *)
Variable fetch : str -> FetchOptions -> World -> Awaited Response.
Variable text : Response -> World -> Awaited str.

(** The promise returned by [request]: rejected with a thrown value,
    or with the details of a response that is not ok. *)
Inductive Reason : Type :=
| Error (e : Exn)
| NotOk (d : Details).

Inductive Promise : Type :=
| Resolves (b : Payload)
| Rejects (r : Reason).

(** The interceptors, the world, and what an observer sees of the
    network: the calls of [fetch]. *)
Record State : Type := {
  _before : list Before;
  _after : list After;
  world : World;
  network : list (str * FetchOptions)
}.

Definition with_world (w : World) (s : State) : State :=
  {| _before := _before s; _after := _after s; world := w;
     network := network s |}.

Definition sent (u : str) (o : FetchOptions) (s : State) : State :=
  {| _before := _before s; _after := _after s; world := world s;
     network := network s ++ [(u, o)] |}.

Definition interceptBefore (callback : Before) (s : State) : State :=
  {| _before := _before s ++ [callback]; _after := _after s;
     world := world s; network := network s |}.

Definition interceptAfter (callback : After) (s : State) : State :=
  {| _before := _before s; _after := _after s ++ [callback];
     world := world s; network := network s |}.

(** The loops over [_before] and [_after]: each interceptor is awaited
    in turn, the first that throws ends the loop. *)
Fixpoint run {A : Type} (callbacks : list (A -> World -> Awaited A))
  (this : A) (w : World) : Awaited A :=
  match callbacks with
  | [] => Settled w this
  | callback :: rest =>
      match callback this w with
      | Settled w' this' => run rest this' w'
      | Thrown w' e => Thrown w' e
      end
  end.

(** The query of a GET request: a string as it is; for any other
    truthy value one piece [key=value] for each of [Object.keys], a
    [FormData] having none. *)
Definition query_of (d : Data FormData) : str :=
  match d with
  | DString s => s
  | DObject o =>
      join (js "&")
           (map (fun kv => encodeURIComponent (fst kv)
                           ++ js "=" ++ encodeURIComponent (snd kv))
                (Accessors.enumeration o))
  | DUndefined | DNull | DForm _ => []
  end.

Definition with_url (u : str) (r : RequestObject) : RequestObject :=
  {| method := method r; url := u; data := data r; headers := headers r;
     body := body r; init := init r |}.

Definition with_headers (h : Headers) (r : RequestObject) : RequestObject :=
  {| method := method r; url := url r; data := data r; headers := h;
     body := body r; init := init r |}.

Definition content_type : str := js "application/json; charset=utf8".

(** From the copy of the request to the call of [fetch]: the request
    as it is afterwards and the options.  The options share their
    headers with the request.  [None]: the write of [Content-Type]
    throws. *)
Definition prepare (r : RequestObject) : option (RequestObject * FetchOptions) :=
  if negb (Str.eqb (method r) (js "GET")) then
    match body r with
    | BUndefined | BNull =>
        match data r with
        | DForm f =>
            Some (r, {| fetch_method := method r; fetch_headers := headers r;
                        fetch_body := BForm f; fetch_init := init r |})
        | d =>
            match headers r with
            | HObject h =>
                let h' := HObject (Obj.set (js "Content-Type") content_type h) in
                Some (with_headers h' r,
                      {| fetch_method := method r; fetch_headers := h';
                         fetch_body := match d with
                                       | DUndefined => BUndefined
                                       | _ => BString (JSON_stringify d)
                                       end;
                         fetch_init := init r |})
            | HUndefined | HNull => None
            end
        end
    | b =>
        Some (r, {| fetch_method := method r; fetch_headers := headers r;
                    fetch_body := b; fetch_init := init r |})
    end
  else
    let query := query_of (data r) in
    Some (if is_nil query then r else with_url (url r ++ js "?" ++ query) r,
          {| fetch_method := method r; fetch_headers := headers r;
             fetch_body := body r; fetch_init := init r |}).

Definition parse (t : str) : Payload :=
  match JSON_parse t with
  | Some j => Parsed j
  | None => Text t
  end.

Definition request (method0 : str) (url0 : str) (data0 : Data FormData)
  (headers0 : Headers) (s : State) : State * Promise :=
  let request0 := {| method := method0; url := url0; data := data0;
                     headers := headers0; body := BUndefined;
                     init := no_init |} in
  match run (_before s) request0 (world s) with
  | Thrown w e => (with_world w s, Rejects (Error e))
  | Settled w request1 =>
      match prepare request1 with
      | None => (with_world w s, Rejects (Error TypeError))
      | Some (request2, options) =>
          let s' := sent (url request2) options s in
          match fetch (url request2) options w with
          | Thrown w e => (with_world w s', Rejects (Error e))
          | Settled w response =>
              match text response w with
              | Thrown w e => (with_world w s', Rejects (Error e))
              | Settled w t =>
                  let details := {| details_request := request2;
                                    details_response := response;
                                    details_body := parse t |} in
                  match run (_after s) details w with
                  | Thrown w e => (with_world w s', Rejects (Error e))
                  | Settled w details' =>
                      (with_world w s',
                       if ok response then Resolves (parse t)
                       else Rejects (NotOk details'))
                  end
              end
          end
      end
  end.

Definition options := request (js "OPTIONS").
Definition head := request (js "HEAD").
Definition get := request (js "GET").
Definition post := request (js "POST").
Definition put := request (js "PUT").
Definition patch := request (js "PATCH").
Definition _delete := request (js "DELETE").

End Request.

Arguments Settled {Exn World A} w a.
Arguments Thrown {Exn World A} w e.
Arguments Text {Json} t.
Arguments Parsed {Json} j.
Arguments Error {Exn FormData Json Response Init} e.
Arguments NotOk {Exn FormData Json Response Init} d.
Arguments Resolves {Exn FormData Json Response Init} b.
Arguments Rejects {Exn FormData Json Response Init} r.
Arguments method {FormData Init} r.
Arguments url {FormData Init} r.
Arguments data {FormData Init} r.
Arguments headers {FormData Init} r.
Arguments body {FormData Init} r.
Arguments init {FormData Init} r.
Arguments fetch_method {FormData Init} f.
Arguments fetch_headers {FormData Init} f.
Arguments fetch_body {FormData Init} f.
Arguments fetch_init {FormData Init} f.
Arguments details_request {FormData Json Response Init} d.
Arguments details_response {FormData Json Response Init} d.
Arguments details_body {FormData Json Response Init} d.
Arguments _before {Exn World FormData Json Response Init} s.
Arguments _after {Exn World FormData Json Response Init} s.
Arguments world {Exn World FormData Json Response Init} s.
Arguments network {Exn World FormData Json Response Init} s.
Arguments with_world {Exn World FormData Json Response Init} w s.
Arguments sent {Exn World FormData Json Response Init} u o s.
Arguments interceptBefore {Exn World FormData Json Response Init} callback s.
Arguments interceptAfter {Exn World FormData Json Response Init} callback s.
Arguments run {Exn World A} callbacks this w.
Arguments query_of {FormData} encodeURIComponent d.
Arguments with_url {FormData Init} u r.
Arguments with_headers {FormData Init} h r.
Arguments prepare {FormData Init} encodeURIComponent JSON_stringify r.
Arguments parse {Json} JSON_parse t.
Arguments request {Exn World FormData Json Response Init}.
Arguments options {Exn World FormData Json Response Init}.
Arguments head {Exn World FormData Json Response Init}.
Arguments get {Exn World FormData Json Response Init}.
Arguments post {Exn World FormData Json Response Init}.
Arguments put {Exn World FormData Json Response Init}.
Arguments patch {Exn World FormData Json Response Init}.
Arguments _delete {Exn World FormData Json Response Init}.

End Http.

(** A small network for the examples: thrown values are numbers, the world
    is a list of marks, a response is its status and its text; the URL
    [/ok] is answered with an ok response, any other with one that is not
    ok, and the text is the URL. *)
Module HttpDemo.

Import Http.

Definition Response : Type := bool * str.

Definition fetch (u : str) (o : FetchOptions unit unit) (w : list nat)
  : Awaited nat (list nat) Response :=
  Settled w (Str.eqb u (js "/ok"), u).

Definition text (r : Response) (w : list nat) : Awaited nat (list nat) str :=
  Settled w (snd r).

Definition JSON_stringify (d : Data unit) : str :=
  match d with
  | DString s => js "'" ++ s ++ js "'"
  | DObject _ => js "{}"
  | _ => js "null"
  end.

Definition JSON_parse (t : str) : option str :=
  if starts_with "{" t then Some t else None.

Definition State : Type := Http.State nat (list nat) unit str Response unit.

Definition start : State :=
  {| _before := []; _after := []; world := []; network := [] |}.

Definition request := Http.request 0 tt (fun s => s) JSON_stringify JSON_parse fst fetch text.

Definition mark (n : nat) : Before nat (list nat) unit unit :=
  fun r w => Settled (w ++ [n]) r.

Definition fail (e : nat) : Before nat (list nat) unit unit :=
  fun r w => Thrown w e.

End HttpDemo.

(** * Properties *)

(** ** Facts about the string primitives *)

Section StrFacts.

Lemma ascii_eqb_false (a b : ascii) : a <> b -> Ascii.eqb a b = false.
Proof. intros H. destruct (Ascii.eqb_spec a b); congruence. Qed.

Lemma occurs_dslash s : occurs (js "//") s = dslash s.
Proof.
  induction s as [|a t IH]; [reflexivity|].
  cbn [occurs dslash]. rewrite IH. f_equal.
  destruct t as [|b t']; cbn.
  - now rewrite !andb_false_r.
  - rewrite andb_true_r, (Ascii.eqb_sym "/"%char a), (Ascii.eqb_sym "/"%char b).
    reflexivity.
Qed.

Lemma occurs_slashq s : occurs (js "/?") s = slashq s.
Proof.
  induction s as [|a t IH]; [reflexivity|].
  cbn [occurs slashq]. rewrite IH. f_equal.
  destruct t as [|b t']; cbn.
  - now rewrite !andb_false_r.
  - rewrite andb_true_r, (Ascii.eqb_sym "/"%char a), (Ascii.eqb_sym "?"%char b).
    reflexivity.
Qed.

Lemma is_prefix_occurs pat s : is_prefix pat s = true -> occurs pat s = true.
Proof. destruct s; cbn; intros ->; reflexivity. Qed.

Lemma replace_first_absent pat rep s :
  occurs pat s = false -> replace_first pat rep s = s.
Proof.
  induction s as [|c t IH]; cbn [occurs replace_first]; intros H.
  - apply orb_false_elim in H as [-> _]. reflexivity.
  - apply orb_false_elim in H as [-> H]. now rewrite IH.
Qed.

Lemma takeq_cons c s :
  takeq (c :: s) = if Ascii.eqb c qmark then [] else c :: takeq s.
Proof.
  unfold takeq. cbn [split].
  destruct (Ascii.eqb c qmark); [reflexivity|].
  destruct (split qmark s); reflexivity.
Qed.

Lemma takeq_no_q s : has_q s = false -> takeq s = s.
Proof.
  induction s as [|c t IH]; [reflexivity|].
  cbn [has_q existsb]. intros H. apply orb_false_elim in H as [Hc Ht].
  rewrite takeq_cons, Hc. f_equal. now apply IH.
Qed.

Lemma has_q_takeq s : has_q (takeq s) = false.
Proof.
  induction s as [|c t IH]; [reflexivity|].
  rewrite takeq_cons. destruct (Ascii.eqb c qmark) eqn:E; [reflexivity|].
  cbn [has_q existsb]. rewrite E. exact IH.
Qed.

End StrFacts.

(** ** The slash-stripping steps *)

Section StripFacts.

Lemma strip_trailing_ends s : ends_with slash (strip_trailing s) = false.
Proof.
  induction s as [|c t IH]; [reflexivity|].
  cbn [strip_trailing]. destruct (strip_trailing t) as [|d r] eqn:E.
  - destruct (Ascii.eqb c slash) eqn:Ec; cbn; auto.
  - exact IH.
Qed.

Lemma strip_trailing_id s : ends_with slash s = false -> strip_trailing s = s.
Proof.
  induction s as [|c t IH]; [reflexivity|].
  destruct t as [|d t'].
  - cbn. now intros ->.
  - intros H. change (ends_with slash (d :: t') = false) in H.
    cbn [strip_trailing] in *. rewrite (IH H). reflexivity.
Qed.

Lemma strip_trailing_prefix s : exists r, s = strip_trailing s ++ r.
Proof.
  induction s as [|c t [r IH]]; [now exists []|].
  cbn [strip_trailing]. destruct (strip_trailing t) as [|d u] eqn:E.
  - destruct (Ascii.eqb c slash).
    + now exists (c :: t).
    + exists t. reflexivity.
  - exists r. cbn [app]. f_equal. exact IH.
Qed.

Lemma strip_leading_starts s : starts_with slash (strip_leading s) = false.
Proof.
  induction s as [|c t IH]; [reflexivity|].
  cbn [strip_leading]. destruct (Ascii.eqb c slash) eqn:E; [exact IH|].
  exact E.
Qed.

Lemma strip_leading_id s : starts_with slash s = false -> strip_leading s = s.
Proof. destruct s as [|c t]; cbn; [reflexivity|]. now intros ->. Qed.

Lemma strip_leading_suffix s : exists l, s = l ++ strip_leading s.
Proof.
  induction s as [|c t [l IH]]; [now exists []|].
  cbn [strip_leading]. destruct (Ascii.eqb c slash).
  - exists (c :: l). cbn. now rewrite <- IH.
  - now exists [].
Qed.

Lemma ends_with_app_r c l s : s <> [] -> ends_with c (l ++ s) = ends_with c s.
Proof.
  intros Hs. induction l as [|x l IH]; [reflexivity|].
  cbn [app ends_with]. destruct (l ++ s) eqn:E; [|exact IH].
  destruct l, s; cbn in E; congruence.
Qed.

Lemma strip_leading_ends s :
  ends_with slash s = false -> ends_with slash (strip_leading s) = false.
Proof.
  intros H. destruct (strip_leading_suffix s) as [l Hl].
  destruct (strip_leading s) as [|d u] eqn:E; [reflexivity|].
  rewrite Hl, ends_with_app_r in H; [exact H|discriminate].
Qed.

Lemma dslash_app_l a b : dslash (a ++ b) = false -> dslash a = false.
Proof.
  induction a as [|x a IH]; [reflexivity|].
  cbn [app dslash]. intros H. apply orb_false_elim in H as [H1 H2].
  rewrite (IH H2), orb_false_r.
  destruct (Ascii.eqb x slash); [|reflexivity].
  destruct a; [reflexivity|exact H1].
Qed.

Lemma dslash_app_r a b : dslash (a ++ b) = false -> dslash b = false.
Proof.
  induction a as [|x a IH]; [trivial|].
  cbn [app dslash]. intros H. apply orb_false_elim in H as [_ H]. auto.
Qed.

Lemma slashq_app_l a b : slashq (a ++ b) = false -> slashq a = false.
Proof.
  induction a as [|x a IH]; [reflexivity|].
  cbn [app slashq]. intros H. apply orb_false_elim in H as [H1 H2].
  rewrite (IH H2), orb_false_r.
  destruct (Ascii.eqb x slash); [|reflexivity].
  destruct a; [reflexivity|exact H1].
Qed.

Lemma slashq_app_r a b : slashq (a ++ b) = false -> slashq b = false.
Proof.
  induction a as [|x a IH]; [trivial|].
  cbn [app slashq]. intros H. apply orb_false_elim in H as [_ H]. auto.
Qed.

Lemma dslash_strips s :
  dslash s = false -> dslash (strip_leading (strip_trailing s)) = false.
Proof.
  intros H. destruct (strip_trailing_prefix s) as [r Hr].
  destruct (strip_leading_suffix (strip_trailing s)) as [l Hl].
  rewrite Hr in H. apply dslash_app_l in H. rewrite Hl in H.
  now apply dslash_app_r in H.
Qed.

Lemma slashq_strips s :
  slashq s = false -> slashq (strip_leading (strip_trailing s)) = false.
Proof.
  intros H. destruct (strip_trailing_prefix s) as [r Hr].
  destruct (strip_leading_suffix (strip_trailing s)) as [l Hl].
  rewrite Hr in H. apply slashq_app_l in H. rewrite Hl in H.
  now apply slashq_app_r in H.
Qed.

Lemma takeq_strip_leading s :
  takeq (strip_leading s) = strip_leading (takeq s).
Proof.
  induction s as [|c t IH]; [reflexivity|].
  cbn [strip_leading]. destruct (Ascii.eqb_spec c slash) as [->|Hc].
  - rewrite takeq_cons. change (Ascii.eqb slash qmark) with false.
    cbn [strip_leading]. now rewrite Ascii.eqb_refl.
  - rewrite takeq_cons. destruct (Ascii.eqb c qmark); [reflexivity|].
    cbn [strip_leading]. now rewrite (ascii_eqb_false _ _ Hc).
Qed.

Lemma has_q_strip_trailing s : has_q (strip_trailing s) = has_q s.
Proof.
  induction s as [|c t IH]; [reflexivity|].
  cbn [strip_trailing]. destruct (strip_trailing t) as [|d r] eqn:E.
  - change (has_q (c :: t)) with (Ascii.eqb c qmark || has_q t).
    rewrite <- IH.
    destruct (Ascii.eqb_spec c slash) as [->|Hc]; [reflexivity|].
    cbn. now rewrite !orb_false_r.
  - change (has_q (c :: t)) with (Ascii.eqb c qmark || has_q t).
    now rewrite <- IH.
Qed.

Lemma takeq_strip_trailing s :
  takeq (strip_trailing s) = if has_q s then takeq s else strip_trailing s.
Proof.
  destruct (has_q s) eqn:Hq.
  - induction s as [|c t IH]; [discriminate|].
    cbn [has_q existsb] in Hq. cbn [strip_trailing].
    destruct (Ascii.eqb c qmark) eqn:Ec.
    + rewrite takeq_cons, Ec.
      destruct (strip_trailing t); [|now rewrite takeq_cons, Ec].
      apply Ascii.eqb_eq in Ec. subst c. reflexivity.
    + cbn in Hq. specialize (IH Hq).
      pose proof (has_q_strip_trailing t) as Ht. fold (has_q t) in Hq.
      rewrite Hq in Ht.
      destruct (strip_trailing t) as [|d r]; [discriminate|].
      now rewrite !takeq_cons, Ec, <- IH, takeq_cons.
  - apply takeq_no_q. now rewrite has_q_strip_trailing.
Qed.

End StripFacts.

(** ** Normal forms of [normalizePath] *)

Section NormalizeFacts.

Lemma drop_slash_before_query_cons c t :
  drop_slash_before_query (c :: t) =
    if Ascii.eqb c slash && starts_with qmark t then qmark :: tl t
    else c :: drop_slash_before_query t.
Proof.
  unfold drop_slash_before_query. cbn [replace_first js list_ascii_of_string is_prefix].
  rewrite (Ascii.eqb_sym "/"%char c). fold slash.
  destruct (Ascii.eqb c slash); [|reflexivity].
  destruct t as [|d t']; [reflexivity|].
  cbn [andb starts_with tl]. rewrite (Ascii.eqb_sym "?"%char d). fold qmark.
  destruct (Ascii.eqb d qmark); reflexivity.
Qed.

Lemma starts_slash_drop p :
  starts_with slash (drop_slash_before_query p) = true ->
  starts_with slash p = true.
Proof.
  destruct p as [|c t]; [discriminate|].
  rewrite drop_slash_before_query_cons.
  destruct (Ascii.eqb c slash) eqn:Ec; [intros _; exact Ec|].
  cbn. now rewrite Ec.
Qed.

Lemma dslash_drop p :
  dslash p = false -> dslash (drop_slash_before_query p) = false.
Proof.
  induction p as [|c t IH]; [reflexivity|].
  rewrite drop_slash_before_query_cons. cbn [dslash].
  intros H. apply orb_false_elim in H as [H1 H2].
  destruct (Ascii.eqb c slash) eqn:Ec; cbn [andb] in *.
  - destruct t as [|d t']; cbn [starts_with] in *.
    + cbn. now rewrite Ec.
    + destruct (Ascii.eqb d qmark) eqn:Ed.
      * cbn [tl dslash]. apply Ascii.eqb_eq in Ed. subst d.
        cbn [dslash] in H2. exact H2.
      * cbn [dslash]. rewrite Ec, (IH H2), orb_false_r. cbn [andb].
        destruct (starts_with slash (drop_slash_before_query (d :: t'))) eqn:E;
          [|reflexivity].
        apply starts_slash_drop in E. cbn in E. congruence.
  - cbn [dslash]. rewrite Ec. cbn [andb orb]. auto.
Qed.

(** In a string free of double slashes, once the first "/?" has lost its
    slash the part in front of the first question mark does not end in a
    slash. *)
Lemma takeq_drop_ends p :
  dslash p = false ->
  has_q (drop_slash_before_query p) = true ->
  ends_with slash (takeq (drop_slash_before_query p)) = false.
Proof.
  induction p as [|c t IH]; [discriminate|].
  rewrite drop_slash_before_query_cons. cbn [dslash].
  intros H Hq. apply orb_false_elim in H as [H1 H2].
  destruct (Ascii.eqb c slash && starts_with qmark t) eqn:E.
  - now rewrite takeq_cons, Ascii.eqb_refl.
  - rewrite takeq_cons in *. cbn [has_q existsb] in Hq.
    destruct (Ascii.eqb c qmark) eqn:Ec; [reflexivity|].
    cbn [orb] in Hq. specialize (IH H2 Hq).
    destruct (takeq (drop_slash_before_query t)) as [|d u] eqn:Et;
      [|exact IH].
    cbn [ends_with]. destruct (Ascii.eqb c slash) eqn:Es; [|reflexivity].
    cbn [andb] in *. exfalso.
    destruct t as [|d t']; [discriminate|].
    cbn [starts_with] in E, H1.
    rewrite drop_slash_before_query_cons, H1 in Et. cbn [andb] in Et.
    rewrite takeq_cons, E in Et. discriminate.
Qed.

Lemma has_q_slashq s : has_q s = false -> slashq s = false.
Proof.
  induction s as [|c t IH]; [reflexivity|].
  cbn [has_q existsb slashq]. intros H. apply orb_false_elim in H as [_ H].
  fold (has_q t) in H. rewrite (IH H), orb_false_r.
  destruct t as [|d t']; cbn; [now rewrite andb_false_r|].
  cbn [has_q existsb] in H. apply orb_false_elim in H as [-> _].
  now rewrite andb_false_r.
Qed.

Lemma drop_absent s : slashq s = false -> drop_slash_before_query s = s.
Proof.
  intros H. apply replace_first_absent. now rewrite occurs_slashq.
Qed.

Lemma collapse_absent s :
  dslash s = false -> replace_first (js "//") (js "/") s = s.
Proof.
  intros H. apply replace_first_absent. now rewrite occurs_dslash.
Qed.

Lemma replace_first_nil s : replace_first [] [] s = s.
Proof. destruct s; reflexivity. Qed.

Lemma normalizePath_tidy origin base x dq :
  normalizePath origin base x dq =
    tidy (replace_first base [] (replace_first origin [] x)) dq.
Proof. reflexivity. Qed.

Lemma dslash_cons_slash b :
  starts_with slash b = false -> dslash b = false ->
  dslash (slash :: b) = false.
Proof. intros H1 H2. cbn [dslash]. now rewrite H1, H2, andb_false_r. Qed.

Lemma tidy_keep_shape p :
  dslash p = false ->
  tidy p false = slash :: body p /\ tidy_body (body p) /\
  (slashq (drop_slash_before_query p) = false -> slashq (body p) = false).
Proof.
  intros H. unfold tidy. fold (body p).
  assert (H3 : dslash (drop_slash_before_query p) = false)
    by now apply dslash_drop.
  assert (Hb : tidy_body (body p)).
  { repeat split.
    - apply strip_leading_starts.
    - apply strip_leading_ends, strip_trailing_ends.
    - now apply dslash_strips. }
  split; [|split; [exact Hb|]].
  - apply collapse_absent. destruct Hb as (? & ? & ?).
    now apply dslash_cons_slash.
  - apply slashq_strips.
Qed.

Lemma dslash_takeq s : dslash s = false -> dslash (takeq s) = false.
Proof.
  induction s as [|c t IH]; [reflexivity|].
  rewrite takeq_cons. cbn [dslash]. intros H.
  apply orb_false_elim in H as [H1 H2].
  destruct (Ascii.eqb c qmark) eqn:Ec; [reflexivity|].
  cbn [dslash]. rewrite (IH H2), orb_false_r.
  destruct (Ascii.eqb c slash); [|reflexivity]. cbn [andb] in *.
  destruct t as [|d t']; [reflexivity|]. rewrite takeq_cons.
  cbn [starts_with] in H1.
  destruct (Ascii.eqb d qmark); [reflexivity|exact H1].
Qed.

Lemma starts_slash_takeq s :
  starts_with slash s = false -> starts_with slash (takeq s) = false.
Proof.
  destruct s as [|c t]; [reflexivity|]. rewrite takeq_cons.
  destruct (Ascii.eqb c qmark); [reflexivity|]. trivial.
Qed.

Lemma tidy_drop_shape p :
  dslash p = false ->
  tidy p true = slash :: takeq (body p) /\ tidy_body (takeq (body p)) /\
  has_q (takeq (body p)) = false.
Proof.
  intros H. destruct (tidy_keep_shape p H) as (Hb & (B1 & B2 & B3) & _).
  unfold tidy in *. cbv zeta in *. fold (body p) in *. rewrite Hb.
  split; [|split; [repeat split|]].
  - rewrite takeq_cons. reflexivity.
  - now apply starts_slash_takeq.
  - unfold body.
    rewrite takeq_strip_leading, takeq_strip_trailing.
    destruct (has_q (drop_slash_before_query p)) eqn:Hq.
    + apply strip_leading_ends. now apply takeq_drop_ends.
    + apply strip_leading_ends, strip_trailing_ends.
  - now apply dslash_takeq.
  - apply has_q_takeq.
Qed.

(** Results of that shape are fixed points of the environment-free
    steps. *)
Lemma strips_slash_body b :
  tidy_body b -> strip_leading (strip_trailing (slash :: b)) = b.
Proof.
  intros (B1 & B2 & _). destruct b as [|d u]; [reflexivity|].
  rewrite strip_trailing_id by exact B2.
  cbn [strip_leading]. rewrite Ascii.eqb_refl.
  cbn [starts_with] in B1. now rewrite B1.
Qed.

Lemma tidy_fixed b (dq : bool) :
  tidy_body b ->
  (if dq then has_q b else slashq b) = false ->
  tidy (slash :: b) dq = slash :: b.
Proof.
  intros Hb Hq. pose proof Hb as (B1 & B2 & B3).
  assert (Hs : slashq b = false)
    by (destruct dq; [now apply has_q_slashq|exact Hq]).
  assert (E : strip_leading (strip_trailing
                (drop_slash_before_query (slash :: b))) = b).
  { rewrite drop_slash_before_query_cons, Ascii.eqb_refl. cbn [andb].
    destruct (starts_with qmark b) eqn:Eq.
    - destruct b as [|d u]; [discriminate|]. cbn [starts_with tl] in *.
      apply Ascii.eqb_eq in Eq. subst d.
      rewrite strip_trailing_id by exact B2. now apply strip_leading_id.
    - rewrite (drop_absent _ Hs). now apply strips_slash_body. }
  unfold tidy. rewrite E.
  rewrite collapse_absent by now apply dslash_cons_slash.
  destruct dq; [|reflexivity].
  rewrite takeq_cons. change (Ascii.eqb slash qmark) with false.
  now rewrite (takeq_no_q _ Hq).
Qed.

Lemma is_prefix_dslash pat s :
  is_prefix pat s = true -> dslash pat = true -> dslash s = true.
Proof.
  revert s. induction pat as [|x pat IH]; [discriminate|].
  intros [|y s]; [discriminate|]. cbn [is_prefix dslash].
  intros H D. apply andb_prop in H as [Hxy Hp].
  apply Ascii.eqb_eq in Hxy. subst y.
  apply orb_prop in D as [D|D].
  - apply andb_prop in D as [-> D]. cbn [andb].
    destruct pat as [|x' pat']; [discriminate|].
    destruct s as [|y' s']; [discriminate|].
    cbn [is_prefix starts_with] in *. apply andb_prop in Hp as [Hp _].
    apply Ascii.eqb_eq in Hp. subst y'. now rewrite D.
  - rewrite (IH _ Hp D). apply orb_true_r.
Qed.

Lemma occurs_dslash_mono pat s :
  occurs pat s = true -> dslash pat = true -> dslash s = true.
Proof.
  intros H D. induction s as [|c t IH]; cbn [occurs] in H.
  - rewrite orb_false_r in H. now apply (is_prefix_dslash pat []).
  - apply orb_prop in H as [H|H]; [now apply (is_prefix_dslash pat)|].
    cbn [dslash]. rewrite (IH H). apply orb_true_r.
Qed.

Lemma replace_first_base_absent base y :
  base = [] \/ occurs base y = false -> replace_first base [] y = y.
Proof.
  intros [->|H]; [apply replace_first_nil|now apply replace_first_absent].
Qed.

End NormalizeFacts.

(** ** Segments *)

Section SegmentFacts.

Lemma split_not_nil c s : split c s <> [].
Proof.
  destruct s as [|x t]; cbn; [discriminate|].
  destruct (Ascii.eqb x c); [discriminate|].
  destruct (split c t); discriminate.
Qed.

Lemma split_concat c s : List.concat (map (cons c) (split c s)) = c :: s.
Proof.
  induction s as [|x t IH]; [reflexivity|].
  cbn [split]. destruct (Ascii.eqb_spec x c) as [->|Hx].
  - cbn [map List.concat app]. now rewrite IH.
  - destruct (split c t) as [|h r] eqn:E; [now apply split_not_nil in E|].
    cbn [map List.concat app] in *. injection IH as IH. now rewrite IH.
Qed.

Lemma split_pieces c s :
  Forall (fun p => ~ In c p /\ forall x, In x p -> In x s) (split c s).
Proof.
  induction s as [|x t IH]; [repeat constructor; auto|].
  cbn [split]. destruct (Ascii.eqb_spec x c) as [->|Hx].
  - constructor; [split; [auto|contradiction]|].
    eapply Forall_impl; [|exact IH]. cbn. intros p [H1 H2].
    split; auto.
  - destruct (split c t) as [|h r] eqn:E; [now apply split_not_nil in E|].
    inversion IH as [|? ? [H1 H2] Hr]; subst.
    constructor.
    + split; cbn; [intros [?|?]; [congruence|auto]|].
      intros y [?|?]; auto.
    + eapply Forall_impl; [|exact Hr]. cbn. intros p [H3 H4]. split; auto.
Qed.

Lemma split_nonempty_pieces s :
  s <> [] -> dslash s = false -> ends_with slash s = false ->
  Forall (fun p => p <> []) (tl (split slash s)) /\
  (starts_with slash s = false -> hd [] (split slash s) <> []).
Proof.
  induction s as [|x t IH]; [congruence|].
  intros _ D E. cbn [dslash] in D. apply orb_false_elim in D as [D1 D2].
  cbn [split]. destruct (Ascii.eqb_spec x slash) as [->|Hx].
  - cbn [andb tl hd starts_with] in *. rewrite Ascii.eqb_refl.
    split; [|discriminate].
    destruct t as [|d u]; [discriminate|].
    destruct IH as [I1 I2]; [discriminate|exact D2|exact E|].
    specialize (I2 D1).
    destruct (split slash (d :: u)) as [|h r] eqn:Es;
      [now apply split_not_nil in Es|].
    constructor; [exact I2|exact I1].
  - destruct (split slash t) as [|h r] eqn:Es;
      [now apply split_not_nil in Es|].
    cbn [tl hd]. split; [|discriminate].
    destruct t as [|d u].
    + cbn in Es. injection Es as <- <-. constructor.
    + destruct IH as [I1 _]; [discriminate|exact D2|exact E|exact I1].
Qed.

Lemma has_q_In s : has_q s = false -> ~ In qmark s.
Proof.
  unfold has_q. intros H Hin.
  assert (existsb (fun c => Ascii.eqb c qmark) s = true); [|congruence].
  apply existsb_exists. exists qmark. split; [exact Hin|apply Ascii.eqb_refl].
Qed.

(** A body with the shape of a result is a non-empty list of segments. *)
Lemma body_segments b :
  b <> [] -> tidy_body b -> has_q b = false ->
  exists segs, segs <> [] /\ Forall segment segs /\ slash :: b = path_of segs.
Proof.
  intros Hb (B1 & B2 & B3) Hq. exists (split slash b).
  split; [apply split_not_nil|]. split; [|symmetry; apply split_concat].
  destruct (split_nonempty_pieces _ Hb B3 B2) as [N1 N2]. specialize (N2 B1).
  pose proof (split_pieces slash b) as P.
  destruct (split slash b) as [|h r]; [constructor|]. cbn [hd tl] in *.
  apply has_q_In in Hq.
  inversion P as [|? ? [P1 P2] Pr]; subst.
  constructor; [repeat split; auto|].
  rewrite Forall_forall in *. intros p Hp. destruct (Pr p Hp) as [Q1 Q2].
  repeat split; auto.
Qed.

Lemma no_slash_facts s :
  ~ In slash s ->
  starts_with slash s = false /\ ends_with slash s = false /\
  dslash s = false.
Proof.
  induction s as [|x t IH]; [auto|]. intros H.
  assert (Hx : Ascii.eqb x slash = false).
  { apply ascii_eqb_false. intros ->. apply H. now left. }
  destruct IH as (I1 & I2 & I3); [intros ?; apply H; now right|].
  cbn [starts_with ends_with dslash]. rewrite Hx, I3.
  repeat split. destruct t; [reflexivity|exact I2].
Qed.

Lemma dslash_app a b :
  dslash a = false -> dslash b = false -> ends_with slash a = false ->
  dslash (a ++ b) = false.
Proof.
  induction a as [|x t IH]; [trivial|].
  cbn [app dslash]. intros D Db E. apply orb_false_elim in D as [D1 D2].
  destruct t as [|d u].
  - cbn [app ends_with] in *. rewrite E. exact Db.
  - rewrite IH by assumption. cbn [app starts_with] in *.
    now rewrite D1.
Qed.

Lemma path_of_no_dslash segs :
  Forall segment segs -> dslash (path_of segs) = false.
Proof.
  induction 1 as [|s r (Hs & Hn & _) _ IH]; [reflexivity|].
  destruct (no_slash_facts _ Hn) as (N1 & N2 & N3).
  change (path_of (s :: r)) with (slash :: (s ++ path_of r)).
  apply dslash_cons_slash.
  - destruct s; [congruence|exact N1].
  - now apply dslash_app.
Qed.

End SegmentFacts.

(** ** Idempotence and shape of [normalizePath] *)







(** ** Facts about single code units *)

Section CharFacts.

Ltac all_chars c :=
  destruct c as [[] [] [] [] [] [] [] []]; vm_compute; try reflexivity;
  try discriminate; auto.

Lemma upper_slash c : Ascii.eqb (upper c) slash = Ascii.eqb c slash.
Proof. all_chars c. Qed.

Lemma letter_not_slash c : is_letter c = true -> Ascii.eqb c slash = false.
Proof. all_chars c. Qed.

Lemma letter_plain c : is_letter c = true -> plain c = true.
Proof. all_chars c. Qed.

Lemma plain_not_syntax c :
  plain c = true ->
  Ascii.eqb c "$" = false /\ Ascii.eqb c "(" = false /\
  Ascii.eqb c "." = false.
Proof. all_chars c. Qed.

Lemma ci_eqb_slash c x :
  ci_eqb c x = true -> Ascii.eqb c slash = Ascii.eqb x slash.
Proof.
  unfold ci_eqb. intros H. apply Ascii.eqb_eq in H.
  now rewrite <- (upper_slash c), <- (upper_slash x), H.
Qed.

Lemma ci_eqb_slash_l x : ci_eqb slash x = Ascii.eqb x slash.
Proof.
  unfold ci_eqb. change (upper slash) with slash.
  now rewrite Ascii.eqb_sym, upper_slash.
Qed.

Lemma ci_eqb_slash_r c : ci_eqb c slash = Ascii.eqb c slash.
Proof. unfold ci_eqb. change (upper slash) with slash. apply upper_slash. Qed.

End CharFacts.

(** ** Compiling a template of plain characters *)

Section CompileFacts.

Lemma parse_group r :
  parse_items 0 (group_source ++ r) = option_map (cons Group) (parse_items 0 r).
Proof. reflexivity. Qed.

Lemma parse_replace s :
  forallb plain s = true ->
  forall m, parse_items 0 (replace_params m s ++ js "$") = Some (items_of m s).
Proof.
  induction s as [|c t IH]; [reflexivity|].
  cbn [forallb]. intros H m. apply andb_prop in H as [Hc Ht].
  cbn [replace_params items_of].
  destruct (m && is_letter c); [now apply IH|].
  destruct (Ascii.eqb c colon && starts_with_letter t).
  - rewrite <- app_assoc, parse_group, IH by exact Ht. reflexivity.
  - destruct (plain_not_syntax c Hc) as (H1 & H2 & H3).
    cbn [app parse_items]. rewrite H1, H2, H3, Hc, IH by exact Ht.
    reflexivity.
Qed.

Lemma RegExp_plain t :
  forallb plain t = true -> RegExp (regex_source t) = Some (items_of false t).
Proof. intros H. unfold regex_source, RegExp. cbn. now apply parse_replace. Qed.

Lemma no_any_items t m : no_any (items_of m t) = true.
Proof.
  revert m. induction t as [|c t IH]; [reflexivity|]. intros m.
  cbn [items_of]. destruct (m && is_letter c); [apply IH|].
  destruct (Ascii.eqb c colon && starts_with_letter t); cbn; apply IH.
Qed.

End CompileFacts.

(** ** Segment counts *)

Section CountFacts.

Lemma segment_count_starts s :
  List.length (filter (fun p => negb (is_nil p)) (tl (split slash s)))
    = seg_starts false s /\
  segment_count s = seg_starts true s.
Proof.
  unfold segment_count. induction s as [|c t [IH1 IH2]]; [split; reflexivity|].
  cbn [split seg_starts]. destruct (Ascii.eqb c slash).
  - cbn [tl filter is_nil negb]. auto.
  - destruct (split slash t) as [|h r] eqn:E; [now apply split_not_nil in E|].
    cbn [tl filter is_nil negb List.length] in *. rewrite IH1. auto.
Qed.

Lemma group_starts (f : str -> bool) (n : nat) :
  (forall u, f u = true -> seg_starts false u = n) ->
  forall u prev, group_then f u = true ->
    seg_starts prev u = (if prev then 1 else 0) + n.
Proof.
  intros Hf. induction u as [|x u IH]; [discriminate|].
  intros prev H. cbn [group_then] in H. apply andb_prop in H as [Hx H].
  apply negb_true_iff in Hx. cbn [seg_starts]. rewrite Hx. f_equal.
  apply orb_prop in H as [H|H]; [now apply Hf|].
  now rewrite (IH false H).
Qed.

Lemma matches_starts p :
  no_any p = true ->
  forall u prev, matches p u = true -> seg_starts prev u = item_starts prev p.
Proof.
  induction p as [|i p IH]; intros Hp.
  - intros [|x u] prev H; [reflexivity|discriminate].
  - cbn [no_any forallb] in Hp. apply andb_prop in Hp as [Hi Hp].
    specialize (IH Hp). destruct i as [c| |]; [|discriminate|].
    + intros [|x u] prev H; [discriminate|]. cbn [matches] in H.
      apply andb_prop in H as [Hc H]. apply ci_eqb_slash in Hc.
      cbn [seg_starts item_starts item_is_slash]. rewrite <- Hc.
      destruct (Ascii.eqb c slash); now rewrite (IH _ _ H).
    + intros u prev H. cbn [matches] in H.
      cbn [item_starts item_is_slash].
      apply (group_starts (matches p)); [|exact H].
      intros v Hv. now apply IH.
Qed.

Lemma items_starts t :
  forall m prev, (m = true -> prev = false) ->
    item_starts prev (items_of m t) = seg_starts prev t.
Proof.
  induction t as [|c t IH]; [reflexivity|]. intros m prev Hm.
  cbn [items_of seg_starts].
  destruct (m && is_letter c) eqn:E.
  - apply andb_prop in E as [-> Hc]. rewrite (Hm eq_refl).
    rewrite (letter_not_slash c Hc). now apply IH.
  - destruct (Ascii.eqb c colon && starts_with_letter t) eqn:E2.
    + apply andb_prop in E2 as [Hc _]. apply Ascii.eqb_eq in Hc. subst c.
      change (Ascii.eqb colon slash) with false.
      cbn [item_starts item_is_slash]. now rewrite IH.
    + cbn [item_starts item_is_slash].
      destruct (Ascii.eqb c slash); rewrite IH; auto; discriminate.
Qed.

Lemma matches_segment_count t u :
  matches (items_of false t) u = true -> segment_count u = segment_count t.
Proof.
  intros H.
  rewrite (proj2 (segment_count_starts u)), (proj2 (segment_count_starts t)).
  rewrite (matches_starts _ (no_any_items t false) u true H).
  apply items_starts. discriminate.
Qed.

End CountFacts.

(** ** Matching segment by segment *)

Section SegmentMatchFacts.

Lemma join_split s : join [slash] (split slash s) = s.
Proof.
  induction s as [|c t IH]; [reflexivity|].
  cbn [split]. destruct (Ascii.eqb_spec c slash) as [->|Hc].
  - destruct (split slash t) as [|h r] eqn:E; [now apply split_not_nil in E|].
    cbn [join app] in *. now rewrite IH.
  - destruct (split slash t) as [|h r] eqn:E; [now apply split_not_nil in E|].
    rewrite <- IH. destruct r; reflexivity.
Qed.

Lemma split_no_slash s : Forall (fun p => no_slash p = true) (split slash s).
Proof.
  pose proof (split_pieces slash s) as H.
  eapply Forall_impl; [|exact H]. cbn. intros p [Hp _].
  unfold no_slash. apply forallb_forall. intros x Hx.
  apply negb_true_iff, ascii_eqb_false. intros ->. contradiction.
Qed.

(** A candidate either holds no slash, or is a slash-free piece, a
    slash and a rest. *)
Lemma split_cases u :
  (no_slash u = true /\ split slash u = [u]) \/
  exists v rest, no_slash v = true /\ u = v ++ slash :: rest /\
                 split slash u = v :: split slash rest.
Proof.
  induction u as [|c t IH]; [now left|].
  cbn [split]. destruct (Ascii.eqb_spec c slash) as [->|Hc].
  - right. exists [], t. auto.
  - destruct IH as [[N E]|(v & rest & N & E & S)].
    + left. rewrite E. split; [|reflexivity].
      cbn [no_slash forallb]. now rewrite (ascii_eqb_false _ _ Hc).
    + right. exists (c :: v), rest. rewrite S, E. repeat split.
      cbn [no_slash forallb]. now rewrite (ascii_eqb_false _ _ Hc).
Qed.

Lemma items_lit seg r :
  forallb lit_char seg = true ->
  items_of false (seg ++ r) = map Lit seg ++ items_of false r.
Proof.
  induction seg as [|c t IH]; [reflexivity|].
  cbn [forallb]. intros H. apply andb_prop in H as [Hc Ht].
  unfold lit_char in Hc. apply andb_prop in Hc as [Hc _].
  apply andb_prop in Hc as [_ Hc]. apply negb_true_iff in Hc.
  cbn [app items_of andb map]. rewrite Hc. cbn [andb]. now rewrite IH.
Qed.

Lemma items_name name r :
  forallb is_letter name = true ->
  items_of true (name ++ r) = items_of true r.
Proof.
  induction name as [|c t IH]; [reflexivity|].
  cbn [forallb]. intros H. apply andb_prop in H as [Hc Ht].
  cbn [app items_of andb]. rewrite Hc. now apply IH.
Qed.

Lemma items_after_name r :
  items_of true (slash :: r) = Lit slash :: items_of false r.
Proof. reflexivity. Qed.

Lemma simple_not_colon seg :
  simple_segment seg = true -> starts_with colon seg = false ->
  forallb lit_char seg = true.
Proof.
  destruct seg as [|c t]; [reflexivity|].
  unfold simple_segment. cbn [starts_with]. intros H E.
  rewrite E in H. exact H.
Qed.

Lemma simple_colon seg :
  simple_segment seg = true -> starts_with colon seg = true ->
  exists c name, seg = colon :: c :: name /\ is_letter c = true /\
                 forallb is_letter name = true.
Proof.
  destruct seg as [|c t]; [discriminate|].
  unfold simple_segment. cbn [starts_with]. intros H E. rewrite E in H.
  apply Ascii.eqb_eq in E. subst c.
  destruct t as [|d name]; [discriminate|].
  cbn [is_nil negb andb forallb] in H. apply andb_prop in H as [Hd Hn].
  now exists d, name.
Qed.

Lemma items_segment seg r :
  simple_segment seg = true ->
  items_of false (seg ++ slash :: r)
    = seg_items seg ++ Lit slash :: items_of false r /\
  items_of false seg = seg_items seg.
Proof.
  intros H. unfold seg_items. destruct (starts_with colon seg) eqn:E.
  - destruct (simple_colon seg H E) as (c & name & -> & Hc & Hn).
    cbn [app items_of andb starts_with_letter]. rewrite Hc.
    change (Ascii.eqb colon colon) with true. cbn [andb]. split.
    + rewrite items_name by exact Hn. reflexivity.
    + rewrite <- (app_nil_r name), items_name by exact Hn. reflexivity.
  - pose proof (simple_not_colon seg H E) as L. split.
    + rewrite items_lit by exact L. reflexivity.
    + rewrite <- (app_nil_r seg), items_lit by exact L.
      now rewrite !app_nil_r.
Qed.

Lemma lit_char_not_slash c : lit_char c = true -> Ascii.eqb c slash = false.
Proof.
  unfold lit_char. intros H. apply andb_prop in H as [_ H].
  now apply negb_true_iff in H.
Qed.

(** Literal segment, then a slash and more pattern. *)
Lemma match_lit_then seg q :
  forallb lit_char seg = true ->
  forall v, no_slash v = true ->
    (forall rest, matches (map Lit seg ++ Lit slash :: q) (v ++ slash :: rest)
                  = ci_str_eqb seg v && matches q rest) /\
    matches (map Lit seg ++ Lit slash :: q) v = false.
Proof.
  induction seg as [|c t IH]; intros Hs v Hv.
  - destruct v as [|x v']; cbn [map app matches ci_str_eqb].
    + split; [|reflexivity]. intros rest. now rewrite ci_eqb_slash_l, Ascii.eqb_refl.
    + cbn [no_slash forallb] in Hv. apply andb_prop in Hv as [Hx _].
      apply negb_true_iff in Hx. rewrite ci_eqb_slash_l, Hx. auto.
  - cbn [forallb] in Hs. apply andb_prop in Hs as [Hc Ht].
    destruct v as [|x v']; cbn [map app matches ci_str_eqb].
    + split; [|reflexivity]. intros rest.
      now rewrite ci_eqb_slash_r, (lit_char_not_slash c Hc).
    + cbn [no_slash forallb] in Hv. apply andb_prop in Hv as [_ Hv].
      destruct (IH Ht v' Hv) as [I1 I2]. split.
      * intros rest. now rewrite I1, andb_assoc.
      * rewrite I2. apply andb_false_r.
Qed.

(** Literal segment at the end of the pattern. *)
Lemma match_lit_last seg :
  forallb lit_char seg = true ->
  forall v,
    matches (map Lit seg) v = ci_str_eqb seg v /\
    (forall rest, matches (map Lit seg) (v ++ slash :: rest) = false).
Proof.
  induction seg as [|c t IH]; intros Hs v.
  - destruct v; cbn; auto.
  - cbn [forallb] in Hs. apply andb_prop in Hs as [Hc Ht].
    destruct v as [|x v']; cbn [map app matches ci_str_eqb].
    + split; [reflexivity|]. intros rest.
      now rewrite ci_eqb_slash_r, (lit_char_not_slash c Hc).
    + destruct (IH Ht v') as [I1 I2]. split; [now rewrite I1|].
      intros rest. rewrite I2. apply andb_false_r.
Qed.

(** Capture, then a slash and more pattern. *)
Lemma match_group_then q v :
  no_slash v = true ->
  (forall rest, group_then (matches (Lit slash :: q)) (v ++ slash :: rest)
                = negb (is_nil v) && matches q rest) /\
  group_then (matches (Lit slash :: q)) v = false.
Proof.
  induction v as [|x v IH]; intros Hv.
  - split; [|reflexivity]. intros rest. cbn [app group_then].
    now rewrite Ascii.eqb_refl.
  - cbn [no_slash forallb] in Hv. apply andb_prop in Hv as [Hx Hv].
    destruct (IH Hv) as [I1 I2]. cbn [app group_then]. rewrite Hx.
    cbn [andb is_nil negb]. split.
    + intros rest. rewrite I1. destruct v as [|y v'].
      * cbn [app matches is_nil negb andb].
        rewrite ci_eqb_slash_l, Ascii.eqb_refl.
        destruct (matches q rest); reflexivity.
      * cbn [app matches is_nil negb andb].
        cbn [no_slash forallb] in Hv. apply andb_prop in Hv as [Hy _].
        apply negb_true_iff in Hy. now rewrite ci_eqb_slash_l, Hy.
    + rewrite I2, orb_false_r. destruct v as [|y v']; [reflexivity|].
      cbn [matches]. cbn [no_slash forallb] in Hv.
      apply andb_prop in Hv as [Hy _]. apply negb_true_iff in Hy.
      now rewrite ci_eqb_slash_l, Hy.
Qed.

(** Capture at the end of the pattern. *)
Lemma match_group_last v :
  no_slash v = true ->
  group_then (matches []) v = negb (is_nil v) /\
  (forall rest, group_then (matches []) (v ++ slash :: rest) = false).
Proof.
  induction v as [|x v IH]; intros Hv.
  - split; [reflexivity|]. intros rest. cbn [app group_then].
    now rewrite Ascii.eqb_refl.
  - cbn [no_slash forallb] in Hv. apply andb_prop in Hv as [Hx Hv].
    destruct (IH Hv) as [I1 I2]. cbn [app group_then]. rewrite Hx.
    cbn [andb is_nil negb]. split.
    + rewrite I1. destruct v; reflexivity.
    + intros rest. rewrite I2, orb_false_r. destruct v; reflexivity.
Qed.

Lemma match_segment_then seg q :
  simple_segment seg = true ->
  forall v, no_slash v = true ->
    (forall rest, matches (seg_items seg ++ Lit slash :: q) (v ++ slash :: rest)
                  = spec_segment_matches seg v && matches q rest) /\
    matches (seg_items seg ++ Lit slash :: q) v = false.
Proof.
  intros H v Hv. unfold seg_items, spec_segment_matches.
  destruct (starts_with colon seg) eqn:E.
  - apply (match_group_then q v Hv).
  - apply match_lit_then; [now apply simple_not_colon|exact Hv].
Qed.

Lemma match_segment_last seg :
  simple_segment seg = true ->
  forall v, no_slash v = true ->
    matches (seg_items seg) v = spec_segment_matches seg v /\
    (forall rest, matches (seg_items seg) (v ++ slash :: rest) = false).
Proof.
  intros H v Hv. unfold seg_items, spec_segment_matches.
  destruct (starts_with colon seg) eqn:E.
  - apply (match_group_last v Hv).
  - apply match_lit_last. now apply simple_not_colon.
Qed.

Lemma matches_by_segment segs :
  segs <> [] -> forallb simple_segment segs = true ->
  forall u, matches (items_of false (join [slash] segs)) u
            = all2 spec_segment_matches segs (split slash u).
Proof.
  induction segs as [|s segs IH]; [congruence|]. intros _ H u.
  cbn [forallb] in H. apply andb_prop in H as [Hs Hr].
  destruct segs as [|s2 r].
  - cbn [join]. rewrite (proj2 (items_segment s [] Hs)).
    destruct (split_cases u) as [[N E]|(v & rest & N & E & S)].
    + rewrite E. cbn [all2]. rewrite andb_true_r.
      apply (match_segment_last s Hs u N).
    + rewrite S, E. rewrite (proj2 (match_segment_last s Hs v N)).
      cbn [all2]. destruct (split slash rest) eqn:Er;
        [now apply split_not_nil in Er|]. now rewrite andb_false_r.
  - change (join [slash] (s :: s2 :: r))
      with (s ++ slash :: join [slash] (s2 :: r)).
    rewrite (proj1 (items_segment s _ Hs)).
    destruct (split_cases u) as [[N E]|(v & rest & N & E & S)].
    + rewrite E. cbn [all2]. rewrite andb_false_r.
      apply (match_segment_then s _ Hs u N).
    + rewrite S, E. cbn [all2].
      rewrite (proj1 (match_segment_then s _ Hs v N)).
      f_equal. apply IH; [discriminate|exact Hr].
Qed.

Lemma simple_plain seg : simple_segment seg = true -> forallb plain seg = true.
Proof.
  intros H. destruct (starts_with colon seg) eqn:E.
  - destruct (simple_colon seg H E) as (c & name & -> & Hc & Hn).
    cbn [forallb]. rewrite (letter_plain c Hc).
    change (plain colon) with true. cbn [andb].
    apply forallb_forall. intros x Hx. apply letter_plain.
    now apply (proj1 (forallb_forall _ _) Hn).
  - apply simple_not_colon in H; [|exact E].
    apply forallb_forall. intros x Hx.
    pose proof (proj1 (forallb_forall _ _) H x Hx) as L.
    unfold lit_char in L. apply andb_prop in L as [L _].
    now apply andb_prop in L as [L _].
Qed.

Lemma plain_of_pieces s :
  forallb (forallb plain) (split slash s) = true -> forallb plain s = true.
Proof.
  induction s as [|c t IH]; [reflexivity|].
  cbn [split]. destruct (Ascii.eqb_spec c slash) as [->|Hc].
  - cbn [forallb]. intros H. now rewrite IH.
  - destruct (split slash t) as [|h r] eqn:E; [now apply split_not_nil in E|].
    cbn [forallb] in *. intros H. apply andb_prop in H as [H Hr].
    apply andb_prop in H as [-> Hh]. rewrite IH; [reflexivity|].
    now rewrite Hh, Hr.
Qed.

Lemma simple_template_plain t :
  forallb simple_segment (split slash t) = true -> forallb plain t = true.
Proof.
  intros H. apply plain_of_pieces. apply forallb_forall. intros p Hp.
  apply simple_plain. now apply (proj1 (forallb_forall _ _) H).
Qed.

End SegmentMatchFacts.

(** ** The compiled pattern of a route *)




(** C7, counterexample: the dot of "/files/:name.json" is a pattern
    wildcard and accepts a slash, so a location of three segments is
    accepted by a template of two. *)
Lemma dot_template_crosses_segments :
  exists r, new_route demo_origin [] (js "/files/:name.json") = Some r /\
            segment_count (normalizePath demo_origin [] (js "/files/x/json") true)
              <> segment_count (path r) /\
            matches (regex r) (normalizePath demo_origin [] (js "/files/x/json") true)
              = true.
Proof. eexists. repeat split. vm_compute. discriminate. Qed.

(** C7, amended: when the normalized template holds plain characters only
    (no pattern syntax character), the compiled pattern refuses every
    location whose normalized path has another number of segments. *)
Theorem pattern_rejects_other_segment_count origin base definition_path :
  forallb plain (normalizePath origin base definition_path true) = true ->
  exists r, new_route origin base definition_path = Some r /\
            forall loc,
              segment_count (normalizePath origin base loc true)
                <> segment_count (path r) ->
              matches (regex r) (normalizePath origin base loc true) = false.
Proof.
  intros H. unfold new_route. rewrite (RegExp_plain _ H).
  eexists. split; [reflexivity|]. cbn [regex path]. intros loc Hn.
  destruct (matches _ _) eqn:E; [|reflexivity].
  apply matches_segment_count in E. contradiction.
Qed.

Lemma pattern_rejects_other_segment_count_witness :
  exists r, new_route demo_origin [] (js "/a/:x/b/:y") = Some r /\
            matches (regex r) (normalizePath demo_origin [] (js "/a/1/b") true)
              = false.
Proof.
  destruct (pattern_rejects_other_segment_count demo_origin [] (js "/a/:x/b/:y"))
    as (r & Hr & H); [reflexivity|].
  exists r. split; [exact Hr|]. apply H.
  vm_compute in Hr. injection Hr as <-. vm_compute. discriminate.
Defined.

(** ** The route table *)

Section MatchFacts.

Lemma match_from_first url routes :
  forall k,
    match match_from url routes k with
    | Some i =>
        k <= i /\
        exists r, nth_error routes (i - k) = Some r /\
                  matches (regex r) url = true /\
                  forall j r', j < i - k -> nth_error routes j = Some r' ->
                               matches (regex r') url = false
    | None => forall r, In r routes -> matches (regex r) url = false
    end.
Proof.
  induction routes as [|item rest IH]; intros k; cbn [match_from].
  - intros r [].
  - destruct (matches (regex item) url) eqn:E.
    + split; [lia|]. exists item. rewrite Nat.sub_diag.
      repeat split; [exact E|]. intros j r' Hj. lia.
    + specialize (IH (S k)). destruct (match_from url rest (S k)) as [i|].
      * destruct IH as (Hk & r & Hr & Hm & Hfirst). split; [lia|].
        exists r. replace (i - k) with (S (i - S k)) by lia.
        repeat split; [exact Hr|exact Hm|].
        intros [|j] r' Hj Hn; cbn in Hn.
        -- now injection Hn as <-.
        -- apply (Hfirst j r'); [lia|exact Hn].
      * intros r [<-|Hr]; auto.
Qed.

End MatchFacts.

(** C8: [match] returns the earliest-registered route whose pattern accepts
    the normalized, query-free path -- every route registered before it
    refuses that path -- and returns none exactly when every registered
    route refuses it. *)
Theorem match_returns_first_route
  (Exn App Browser : Type) (origin : str) (path : str)
  (s : State Exn App Browser) :
  let url := normalizePath origin (base (options s)) path true in
  match match_ origin path s with
  | Some i =>
      exists r, nth_error (_routes s) i = Some r /\
                matches (regex r) url = true /\
                forall j r', j < i -> nth_error (_routes s) j = Some r' ->
                             matches (regex r') url = false
  | None => forall r, In r (_routes s) -> matches (regex r) url = false
  end.
Proof.
  intros url. unfold match_. fold url.
  pose proof (match_from_first url (_routes s) 0) as H.
  destruct (match_from url (_routes s) 0) as [i|]; [|exact H].
  destruct H as (_ & r & Hr & Hm & Hfirst). rewrite Nat.sub_0_r in *.
  now exists r.
Qed.

(** ** The transition engine *)

Section EngineFacts.

Variables Exn App Browser : Type.
Variable origin : str.
Variable decodeURIComponent : str -> option str.
Variable URIError : Exn.
Variable pushState : str -> Browser -> Exn + Browser.
Variable setHash : str -> Browser -> Exn + Browser.

#[local] Abbreviation State := (State Exn App Browser).
#[local] Abbreviation Hook := (Hook Exn App).
#[local] Abbreviation routeChange := (routeChange origin decodeURIComponent URIError pushState setHash).
#[local] Abbreviation change := (change origin decodeURIComponent URIError pushState setHash).

(** Callbacks are kept in registration order. *)
Lemma afterChange_registers_last (h : Hook) (s : State) :
  _after (afterChange h s) = _after s ++ [h] /\
  _before (afterChange h s) = _before s.
Proof. split; reflexivity. Qed.

Lemma beforeChange_registers_last (h : Hook) (s : State) :
  _before (beforeChange h s) = _before s ++ [h] /\
  _after (beforeChange h s) = _after s.
Proof. split; reflexivity. Qed.

Lemma run_callbacks_frame hs :
  forall i t (s : State), same_router s (fst (run_callbacks hs i t s)).
Proof.
  induction hs as [|h hs IH]; intros i t s; cbn [run_callbacks].
  - repeat split.
  - destruct (h t _ _ _) as [a|a e].
    + destruct (IH (S i) t (with_world a (record (Invoked i t) s)))
        as (H1 & H2 & H3 & H4 & H5 & H6 & H7).
      repeat split; assumption.
    + repeat split.
Qed.

Lemma run_callbacks_log hs :
  forall i t (s s' : State),
    run_callbacks hs i t s = (s', None) ->
    log s' = log s ++ invocations i (List.length hs) t.
Proof.
  induction hs as [|h hs IH]; intros i t s s'; cbn [run_callbacks].
  - intros [= <-]. unfold invocations. cbn. now rewrite app_nil_r.
  - destruct (h t _ _ _) as [a|a e]; [|discriminate].
    intros H. apply IH in H. rewrite H. cbn [log with_world record].
    unfold invocations. cbn [List.length seq map].
    now rewrite <- app_assoc.
Qed.

Lemma run_callbacks_throw hs :
  forall i t (s s' : State) e,
    run_callbacks hs i t s = (s', Some e) ->
    exists h, In h hs /\ exists t rs act a a', h t rs act a = Threw a' e.
Proof.
  induction hs as [|h hs IH]; intros i t s s' e; cbn [run_callbacks].
  - discriminate.
  - destruct (h t _ _ _) as [a|a e'] eqn:E.
    + intros H. apply IH in H as (h' & Hin & H). exists h'. split; [now right|exact H].
    + intros [= <- <-]. exists h. split; [now left|]. eauto 6.
Qed.

Lemma run_callbacks_never hs :
  (forall h, In h hs -> never_throws h) ->
  forall i t (s : State), snd (run_callbacks hs i t s) = None.
Proof.
  induction hs as [|h hs IH]; intros Hn i t s; cbn [run_callbacks].
  - reflexivity.
  - destruct (Hn h (or_introl eq_refl) t (_routes (record (Invoked i t) s))
                (_active (record (Invoked i t) s))
                (world (record (Invoked i t) s))) as [a' ->].
    apply IH. intros h' Hh. apply Hn. now right.
Qed.

(** [routeChange] leaves the callbacks, the console, the log and the
    application state alone. *)
Lemma routeChange_frame t (s : State) :
  let s' := fst (routeChange t s) in
  _before s' = _before s /\ _after s' = _after s /\
  console s' = console s /\ log s' = log s /\ world s' = world s.
Proof.
  unfold Router.routeChange. destruct (replace t).
  - destruct (match mode (options (set_prevent true s)) with
              | history => pushState (location t) (browser (set_prevent true s))
              | hash => setHash (location t) (browser (set_prevent true s))
              end) as [e|b]; [repeat split|].
    destruct (next t) as [i|]; [|repeat split].
    destruct (queryFor _ _); [|repeat split].
    destruct (paramsFor _ _ _ _ _); repeat split.
  - destruct (next t) as [i|]; [|repeat split].
    destruct (queryFor _ _); [|repeat split].
    destruct (paramsFor _ _ _ _ _); repeat split.
Qed.

(** With history writes that do not throw, [routeChange] ends with
    [prevent] cleared when [replace] is set, and untouched otherwise. *)
Lemma routeChange_prevent t (s : State) :
  (forall l b, exists b', pushState l b = inr b') ->
  (forall l b, exists b', setHash l b = inr b') ->
  prevent (options (fst (routeChange t s)))
    = if replace t then false else prevent (options s).
Proof.
  intros Hp Hh. unfold Router.routeChange. destruct (replace t).
  - assert (W : exists b',
               match mode (options (set_prevent true s)) with
               | history => pushState (location t) (browser (set_prevent true s))
               | hash => setHash (location t) (browser (set_prevent true s))
               end = inr b').
    { destruct (mode _); [apply Hp|apply Hh]. }
    destruct W as [b' ->].
    destruct (next t) as [i|]; [|reflexivity].
    destruct (queryFor _ _); [|reflexivity].
    destruct (paramsFor _ _ _ _ _); reflexivity.
  - destruct (next t) as [i|]; [|reflexivity].
    destruct (queryFor _ _); [|reflexivity].
    destruct (paramsFor _ _ _ _ _); reflexivity.
Qed.

Lemma app_one_neq (l : list Exn) e : l ++ [e] <> l.
Proof.
  intros H. apply (f_equal (@List.length Exn)) in H.
  rewrite length_app in H. cbn in H. lia.
Qed.



Lemma change_prevent (s : State) loc rep :
  (forall l b, exists b', pushState l b = inr b') ->
  (forall l b, exists b', setHash l b = inr b') ->
  prevent (options s) = false ->
  prevent (options (fst (change loc rep s))) = false.
Proof.
  intros Hp Hh H0. unfold Router.change.
  set (t := make_transition origin loc rep s).
  pose proof (run_callbacks_frame (_after s) 0 t s) as F1.
  destruct (run_callbacks (_after s) 0 t s) as [s1 o1].
  cbn [fst] in F1. destruct F1 as (_ & _ & _ & _ & O1 & _).
  destruct o1 as [e1|]; [cbn [fst]; now rewrite O1|].
  pose proof (routeChange_prevent t (record (Commit t) s1) Hp Hh) as P2.
  cbn [options record] in P2. rewrite O1, H0 in P2.
  assert (P : prevent (options (fst (routeChange t (record (Commit t) s1)))) = false)
    by (rewrite P2; now destruct (replace t)).
  clear P2.
  destruct (routeChange t (record (Commit t) s1)) as [s2 [e2|]];
    [exact P|].
  cbn [fst] in P.
  pose proof (run_callbacks_frame (_after s2) 0 t s2) as F3.
  destruct (run_callbacks (_after s2) 0 t s2) as [s3 o3].
  cbn [fst] in F3. destruct F3 as (_ & _ & _ & _ & O3 & _).
  destruct o3; cbn [fst]; now rewrite O3.
Qed.

Variable location_href : Browser -> str.
Variable location_hash : Browser -> str.

Lemma reachable_prevent m b a (s : State) :
  (forall l b, exists b', pushState l b = inr b') ->
  (forall l b, exists b', setHash l b = inr b') ->
  reachable origin decodeURIComponent URIError pushState setHash
            location_href location_hash m b a s ->
  prevent (options s) = false.
Proof.
  intros Hp Hh. induction 1 as [|c s _ IH]; [reflexivity|].
  destruct c; cbn [perform].
  - unfold add. destruct (new_route _ _ _); [exact IH|exact IH].
  - exact IH.
  - exact IH.
  - unfold redirect. now apply change_prevent.
  - unfold onPopState. rewrite IH.
    pose proof (change_prevent s
      (match mode (options s) with
       | history => location_href (browser s)
       | hash => replace_first (js "#") [] (location_hash (browser s))
       end) false Hp Hh IH) as P.
    destruct (change _ false s) as [s' o]. exact P.
  - exact IH.
  - exact IH.
Qed.

Lemma run_callbacks_ignores_before hs t cs :
  forall i (u : State),
    run_callbacks cs i t (with_before hs u)
    = (with_before hs (fst (run_callbacks cs i t u)),
       snd (run_callbacks cs i t u)).
Proof.
  induction cs as [|c cs IH]; intros i u; cbn [run_callbacks];
    [reflexivity|].
  cbn [_routes _active world record with_before].
  destruct (c t (_routes u) (_active u) (world u)) as [a|a e];
    [|reflexivity].
  apply (IH (S i) (with_world a (record (Invoked i t) u))).
Qed.

Lemma routeChange_ignores_before hs t (u : State) :
  routeChange t (with_before hs u)
  = (with_before hs (fst (routeChange t u)), snd (routeChange t u)).
Proof.
  unfold Router.routeChange.
  cbn [options browser _routes with_before set_prevent with_options
       with_browser mode base prevent].
  destruct (replace t);
    [destruct (mode (options u));
     [destruct (pushState _ _)|destruct (setHash _ _)]|];
    cbn [options browser _routes with_before set_prevent with_options
         with_browser mode base prevent];
    try reflexivity;
    (destruct (next t); [|reflexivity];
     destruct (queryFor _ _); [|reflexivity];
     destruct (paramsFor _ _ _ _ _); reflexivity).
Qed.

(** [change] never reads [_before]. *)
Lemma change_ignores_before hs (s : State) loc rep :
  change loc rep (with_before hs s)
  = (with_before hs (fst (change loc rep s)), snd (change loc rep s)).
Proof.
  unfold Router.change.
  change (make_transition origin loc rep (with_before hs s))
    with (make_transition origin loc rep s).
  generalize (make_transition origin loc rep s). intros t.
  cbn [_after with_before]. rewrite run_callbacks_ignores_before.
  destruct (run_callbacks (_after s) 0 t s) as [s1 [e1|]]; [reflexivity|].
  cbn [fst snd].
  change (record (Commit t) (with_before hs s1))
    with (with_before hs (record (Commit t) s1)).
  rewrite routeChange_ignores_before.
  destruct (routeChange t (record (Commit t) s1)) as [s2 [e2|]];
    [reflexivity|].
  cbn [fst snd _after with_before]. rewrite run_callbacks_ignores_before.
  destruct (run_callbacks (_after s2) 0 t s2) as [s3 [e3|]]; reflexivity.
Qed.

End EngineFacts.

(** ** Hooks around the commit *)

(** C1: a callback registered with [beforeChange] is never applied.  With a
    marking and a throwing callback in [_before], a redirect to a registered
    route commits as if neither were there: no mark is left, the only event
    is the commit, the route becomes active and the promise fulfils. *)
Theorem before_hooks_never_run :
  let s := beforeChange (Demo.fail 7)
             (beforeChange (Demo.mark 1) (Demo.with_route "/x" Demo.start)) in
  let r := Demo.change (js "/x") true s in
  List.length (_before s) = 2 /\
  world (fst r) = [] /\
  log (fst r) = [Commit (make_transition demo_origin (js "/x") true s)] /\
  _active (fst r) = Some (RouteAt 0) /\
  snd r = Fulfilled.
Proof. repeat split. Qed.



(** ** Failures *)



(** ** The suppression flag *)



(** ** Query extraction *)

Section QueryFacts.

Variable decode : str -> option str.

Lemma str_eqb_eq a b : Str.eqb a b = true <-> a = b.
Proof.
  revert b. induction a as [|x a IH]; intros [|y b]; cbn [Str.eqb];
    try (split; [discriminate|congruence]); [now split|].
  rewrite andb_true_iff, Ascii.eqb_eq, IH. split.
  - now intros [-> ->].
  - now intros [= -> ->].
Qed.

Lemma own_app {V : Type} key k (v : V) q :
  Obj.own key (q ++ [(k, v)])
  = match Obj.own key q with
    | Some w => Some w
    | None => if Str.eqb k key then Some v else None
    end.
Proof.
  induction q as [|[k' w] q IH]; [reflexivity|].
  cbn [List.app Obj.own]. now destruct (Str.eqb k' key).
Qed.

Lemma query_step_pair q p :
  query_step decode q p
  = match pair_of decode p with
    | None => None
    | Some (k, v) =>
        Some (if Obj.is_undefined k q then q ++ [(k, v)] else q)
    end.
Proof.
  unfold query_step, pair_of.
  destruct (decode (hd [] (split "=" (plus_to_space p)))) as [key|];
    [|reflexivity].
  destruct (tl (split "=" (plus_to_space p))) as [|x rest]; [reflexivity|].
  now destruct (decode (join (js "=") (x :: rest))).
Qed.

(** After the loop, every key holds what it held before or, if it was
    absent and is no inherited name, the value of its first occurrence
    among the pieces. *)
Lemma query_loop_first params :
  forall q q',
    query_loop decode q params = Some q' ->
    exists pairs,
      decoded_pairs decode params = Some pairs /\
      forall key,
        Obj.own key q'
        = match Obj.own key q with
          | Some v => Some v
          | None => if Obj.inherited key then None else Obj.own key pairs
          end.
Proof.
  induction params as [|p rest IH]; intros q q'; cbn [query_loop decoded_pairs].
  - intros [= <-]. exists []. split; [reflexivity|]. intros key.
    destruct (Obj.own key q); [reflexivity|]. now destruct (Obj.inherited key).
  - rewrite query_step_pair. destruct (pair_of decode p) as [[k v]|];
      [|discriminate].
    intros H. apply IH in H as (pairs & -> & H).
    exists ((k, v) :: pairs). split; [reflexivity|]. intros key.
    rewrite H. clear H. cbn [Obj.own]. unfold Obj.is_undefined.
    destruct (Str.eqb k key) eqn:E.
    + apply str_eqb_eq in E. subst key.
      destruct (Obj.own k q) as [w|] eqn:Ew; [now rewrite Ew|].
      destruct (Obj.inherited k); cbn [negb]; [now rewrite Ew|].
      rewrite own_app, Ew. now rewrite (proj2 (str_eqb_eq k k) eq_refl).
    + destruct (Obj.own k q) as [w|]; [reflexivity|].
      destruct (Obj.inherited k); cbn [negb]; [reflexivity|].
      rewrite own_app, E. now destruct (Obj.own key q).
Qed.

(** For every key that is no inherited name, [queryFor] holds the value
    of the first piece with that key. *)
Lemma queryFor_first_occurrence location q :
  queryFor decode location = Some q ->
  exists pairs,
    (if is_nil (search_of location) then Some []
     else decoded_pairs decode (split "&" (search_of location))) = Some pairs /\
    forall key,
      Obj.own key q = if Obj.inherited key then None else Obj.own key pairs.
Proof.
  unfold queryFor. fold (search_of location).
  destruct (is_nil (search_of location)).
  - intros [= <-]. exists []. split; [reflexivity|]. intros key.
    now destruct (Obj.inherited key).
  - intros H. apply query_loop_first in H as (pairs & Hp & H).
    exists pairs. split; [exact Hp|]. intros key. now rewrite H.
Qed.

End QueryFacts.

(** The example of the specification: the first [a] wins. *)
Lemma queryFor_duplicate_a (decode : str -> option str) :
  (forall s, Demo.percent_free s = true -> decode s = Some s) ->
  queryFor decode (js "/p?a=1&a=2") = Some [(js "a", Some (js "1"))].
Proof.
  intros H. cbv. repeat (rewrite H by reflexivity; cbv). reflexivity.
Qed.

(** C9: a key that names a property of [Object.prototype] is never stored,
    not even at its first occurrence: the test [query[key] === undefined]
    sees the inherited property. *)
Theorem queryFor_drops_inherited_key (decode : str -> option str) :
  (forall s, Demo.percent_free s = true -> decode s = Some s) ->
  queryFor decode (js "/p?toString=1&toString=2") = Some [].
Proof.
  intros H. cbv. repeat (rewrite H by reflexivity; cbv). reflexivity.
Qed.

Lemma queryFor_drops_inherited_key_witness :
  queryFor Demo.decode (js "/p?toString=1&toString=2") = Some [].
Proof.
  apply queryFor_drops_inherited_key. intros s H. unfold Demo.decode.
  now rewrite H.
Defined.

(** * Further properties *)

(** ** What [normalizePath] is insensitive to *)

Section NormalizeMore.

Lemma replace_first_at_front pat p : replace_first pat [] (pat ++ p) = p.
Proof.
  assert (S : skipn (List.length pat) (pat ++ p) = p).
  { induction pat as [|x pat IH]; [reflexivity|exact IH]. }
  assert (P : is_prefix pat (pat ++ p) = true).
  { clear S. induction pat as [|x pat IH]; [reflexivity|].
    cbn [List.app is_prefix]. now rewrite Ascii.eqb_refl. }
  destruct pat as [|x pat]; [apply replace_first_nil|].
  cbn [List.app] in *. cbn [replace_first]. rewrite P.
  cbn [List.app]. exact S.
Qed.

Lemma collapse_keeps_head p :
  starts_with slash p = false ->
  exists r, replace_first (js "//") (js "/") (slash :: p) = slash :: r /\
            starts_with slash r = false.
Proof.
  intros H. destruct p as [|c t].
  - exists []. split; reflexivity.
  - cbn [starts_with] in H.
    assert (E : replace_first (js "//") (js "/") (slash :: c :: t)
                = slash :: replace_first (js "//") (js "/") (c :: t)).
    { cbn [replace_first js list_ascii_of_string is_prefix].
      rewrite (Ascii.eqb_sym "/"%char c). fold slash. rewrite H.
      now rewrite andb_false_r. }
    rewrite E. eexists. split; [reflexivity|].
    cbn [replace_first js list_ascii_of_string is_prefix].
    rewrite (Ascii.eqb_sym "/"%char c). fold slash. rewrite H.
    cbn [andb starts_with]. exact H.
Qed.

Lemma strip_trailing_snoc_slash s :
  strip_trailing (s ++ [slash]) = strip_trailing s.
Proof.
  induction s as [|c t IH]; [reflexivity|].
  cbn [List.app strip_trailing]. now rewrite IH.
Qed.

Lemma strips_cons_slash p :
  strip_leading (strip_trailing (slash :: p))
  = strip_leading (strip_trailing p).
Proof.
  cbn [strip_trailing]. destruct (strip_trailing p) as [|d r].
  - now rewrite Ascii.eqb_refl.
  - cbn [strip_leading]. now rewrite Ascii.eqb_refl.
Qed.

Lemma occurs_app_r pat a p : occurs pat p = true -> occurs pat (a ++ p) = true.
Proof.
  intros H. induction a as [|x a IH]; [exact H|].
  cbn [List.app occurs]. rewrite IH. apply orb_true_r.
Qed.

Lemma is_prefix_app_l pat p b :
  is_prefix pat p = true -> is_prefix pat (p ++ b) = true.
Proof.
  revert p. induction pat as [|x pat IH]; [reflexivity|].
  intros [|y p]; [discriminate|]. cbn [List.app is_prefix].
  intros H. apply andb_prop in H as [-> H]. now rewrite IH.
Qed.

Lemma occurs_app_l pat p b : occurs pat p = true -> occurs pat (p ++ b) = true.
Proof.
  induction p as [|x p IH]; cbn [List.app occurs].
  - rewrite orb_false_r. intros H. destruct pat; [|discriminate].
    destruct b; reflexivity.
  - intros H. apply orb_prop in H as [H|H].
    + change (x :: p ++ b) with ((x :: p) ++ b).
      now rewrite (is_prefix_app_l pat (x :: p) b H).
    + rewrite (IH H). apply orb_true_r.
Qed.

Lemma absent_inside pat a p b :
  pat = [] \/ occurs pat (a ++ p ++ b) = false ->
  pat = [] \/ occurs pat p = false.
Proof.
  intros [->|H]; [now left|right].
  destruct (occurs pat p) eqn:E; [|reflexivity].
  rewrite <- H. symmetry. apply occurs_app_r. now apply occurs_app_l.
Qed.

(** A pattern without question mark that does not occur in front of the
    first question mark is replaced, if at all, behind it. *)
Lemma is_prefix_before_q pat p q :
  has_q pat = false -> is_prefix pat (p ++ qmark :: q) = true ->
  is_prefix pat p = true.
Proof.
  revert p. induction pat as [|x pat IH]; [reflexivity|].
  intros p Hq. cbn [has_q existsb] in Hq. apply orb_false_elim in Hq as [Hx Hq].
  destruct p as [|y p]; cbn [List.app is_prefix].
  - intros H. apply andb_prop in H as [H _]. apply Ascii.eqb_eq in H.
    subst x. now rewrite Ascii.eqb_refl in Hx.
  - intros H. apply andb_prop in H as [-> H]. now apply IH.
Qed.

Lemma replace_first_behind_q pat p q :
  has_q pat = false -> pat = [] \/ occurs pat p = false ->
  exists q', replace_first pat [] (p ++ qmark :: q) = p ++ qmark :: q'.
Proof.
  intros Hq [->|Ho]; [exists q; apply replace_first_nil|].
  induction p as [|y p IH].
  - cbn [List.app]. destruct pat as [|x pat]; [discriminate|].
    cbn [has_q existsb] in Hq. apply orb_false_elim in Hq as [Hx _].
    cbn [replace_first is_prefix]. rewrite Hx. cbn [andb]. eauto.
  - cbn [occurs] in Ho. apply orb_false_elim in Ho as [Hp Ho].
    destruct (IH Ho) as [q' E]. exists q'.
    cbn [List.app replace_first].
    destruct (is_prefix pat (y :: p ++ qmark :: q)) eqn:P.
    + apply (is_prefix_before_q pat (y :: p) q Hq) in P. congruence.
    + now rewrite E.
Qed.

Lemma drop_before_query p q :
  has_q p = false -> dslash p = false ->
  exists q', drop_slash_before_query (p ++ qmark :: q)
             = strip_trailing p ++ qmark :: q'.
Proof.
  induction p as [|c t IH]; intros Hq Hd.
  - cbn [List.app strip_trailing]. rewrite drop_slash_before_query_cons.
    change (Ascii.eqb qmark slash) with false. cbn [andb]. eauto.
  - cbn [has_q existsb] in Hq. apply orb_false_elim in Hq as [Hc Hq].
    cbn [dslash] in Hd. apply orb_false_elim in Hd as [Hs Hd].
    cbn [List.app]. rewrite drop_slash_before_query_cons.
    destruct t as [|d u].
    + cbn [List.app starts_with strip_trailing].
      rewrite Ascii.eqb_refl, andb_true_r.
      destruct (Ascii.eqb c slash).
      * exists q. reflexivity.
      * rewrite drop_slash_before_query_cons.
        change (Ascii.eqb qmark slash) with false. cbn [andb].
        eexists. reflexivity.
    + assert (Hdq : Ascii.eqb d qmark = false).
      { cbn [has_q existsb] in Hq. now apply orb_false_elim in Hq as [? _]. }
      cbn [List.app starts_with]. rewrite Hdq, andb_false_r.
      destruct (IH Hq Hd) as [q' E]. cbn [List.app] in E. rewrite E.
      exists q'. cbn [strip_trailing].
      destruct (strip_trailing u) as [|e r] eqn:Eu; [|reflexivity].
      destruct (Ascii.eqb d slash) eqn:Ed; [|reflexivity].
      cbn [starts_with] in Hs. rewrite Ed, andb_true_r in Hs.
      now rewrite Hs.
Qed.

Lemma takeq_app_q p q : has_q p = false -> takeq (p ++ qmark :: q) = p.
Proof.
  induction p as [|c t IH]; intros Hq.
  - cbn [List.app]. now rewrite takeq_cons, Ascii.eqb_refl.
  - cbn [has_q existsb] in Hq. apply orb_false_elim in Hq as [Hc Hq].
    cbn [List.app]. now rewrite takeq_cons, Hc, IH.
Qed.

Lemma has_q_app_q p q : has_q (p ++ qmark :: q) = true.
Proof.
  unfold has_q. rewrite existsb_app. cbn [existsb].
  rewrite Ascii.eqb_refl. cbn [orb]. apply orb_true_r.
Qed.

Lemma takeq_collapse z :
  dslash (takeq z) = false ->
  takeq (replace_first (js "//") (js "/") z) = takeq z.
Proof.
  induction z as [|c t IH]; [reflexivity|].
  rewrite takeq_cons. destruct (Ascii.eqb c qmark) eqn:Ec.
  - intros _. apply Ascii.eqb_eq in Ec. subst c.
    cbn [replace_first js list_ascii_of_string is_prefix].
    change (Ascii.eqb "/" qmark) with false. cbn [andb].
    now rewrite takeq_cons, Ascii.eqb_refl.
  - cbn [dslash]. intros H. apply orb_false_elim in H as [H1 H2].
    assert (P : is_prefix (js "//") (c :: t) = false).
    { cbn [js list_ascii_of_string is_prefix].
      rewrite (Ascii.eqb_sym "/"%char c). fold slash.
      destruct (Ascii.eqb c slash); [|reflexivity]. cbn [andb] in *.
      destruct t as [|d u]; [reflexivity|]. rewrite takeq_cons in H1.
      rewrite (Ascii.eqb_sym slash d), andb_true_r.
      destruct (Ascii.eqb d qmark) eqn:Ed.
      - apply Ascii.eqb_eq in Ed. subst d. reflexivity.
      - cbn [starts_with] in H1. now rewrite H1. }
    cbn [replace_first]. rewrite P, takeq_cons, Ec. f_equal. now apply IH.
Qed.

Lemma has_q_strip_leading s : has_q (strip_leading s) = has_q s.
Proof.
  induction s as [|c t IH]; [reflexivity|].
  cbn [strip_leading]. destruct (Ascii.eqb_spec c slash) as [->|Hc];
    [|reflexivity].
  rewrite IH. reflexivity.
Qed.

Lemma dslash_strip_trailing s :
  dslash s = false -> dslash (strip_trailing s) = false.
Proof.
  intros H. destruct (strip_trailing_prefix s) as [r Hr].
  rewrite Hr in H. now apply dslash_app_l in H.
Qed.

Lemma tidy_ignores_query p q :
  has_q p = false -> dslash p = false ->
  tidy (p ++ qmark :: q) true = tidy p true.
Proof.
  intros Hq Hd. unfold tidy.
  destruct (drop_before_query p q Hq Hd) as [q' ->].
  rewrite (drop_absent p (has_q_slashq p Hq)).
  set (b := strip_leading (strip_trailing p)).
  assert (Hb : dslash (slash :: b) = false).
  { apply dslash_cons_slash; [apply strip_leading_starts|].
    now apply dslash_strips. }
  assert (Qt : has_q (strip_trailing p) = false)
    by now rewrite has_q_strip_trailing.
  assert (T : takeq (slash :: strip_leading
                       (strip_trailing (strip_trailing p ++ qmark :: q')))
              = slash :: b).
  { rewrite takeq_cons. change (Ascii.eqb slash qmark) with false.
    rewrite takeq_strip_leading, takeq_strip_trailing, has_q_app_q.
    now rewrite takeq_app_q. }
  rewrite takeq_collapse by now rewrite T.
  rewrite T, collapse_absent by exact Hb.
  rewrite takeq_cons. change (Ascii.eqb slash qmark) with false.
  rewrite takeq_no_q; [reflexivity|].
  unfold b. now rewrite has_q_strip_leading.
Qed.

Lemma tidy_ignores_outer_slashes p dq :
  has_q p = false -> tidy (slash :: p ++ [slash]) dq = tidy p dq.
Proof.
  intros Hq. unfold tidy.
  assert (Hq' : has_q (slash :: p ++ [slash]) = false).
  { cbn [has_q existsb]. change (Ascii.eqb slash qmark) with false.
    cbn [orb]. unfold has_q in *. rewrite existsb_app, Hq. reflexivity. }
  rewrite (drop_absent _ (has_q_slashq _ Hq')).
  rewrite (drop_absent _ (has_q_slashq _ Hq)).
  change (slash :: p ++ [slash]) with ((slash :: p) ++ [slash]).
  now rewrite strip_trailing_snoc_slash, strips_cons_slash.
Qed.

End NormalizeMore.

(** X1: whatever the input and the flag, the result of [normalizePath]
    begins with exactly one slash (so it is never empty), and with the query
    dropped it holds no question mark. *)
Theorem normalizePath_one_leading_slash origin base x (dq : bool) :
  (exists r, normalizePath origin base x dq = slash :: r /\
             starts_with slash r = false) /\
  has_q (normalizePath origin base x true) = false.
Proof.
  split.
  - unfold normalizePath.
    destruct (collapse_keeps_head
                (strip_leading (strip_trailing
                   (replace_first (js "/?") (js "?")
                      (replace_first base [] (replace_first origin [] x)))))
                (strip_leading_starts _)) as (r & E & Hr).
    rewrite E. destruct dq; [|eauto].
    change (hd [] (split qmark (slash :: r))) with (takeq (slash :: r)).
    rewrite takeq_cons. change (Ascii.eqb slash qmark) with false.
    eexists. split; [reflexivity|]. now apply starts_slash_takeq.
  - apply has_q_takeq.
Qed.

(** X2: an absolute URL and the path behind it normalize alike: the origin
    and the base in front of a path are removed, provided neither occurs
    again in the path. *)
Theorem normalizePath_strips_origin_and_base origin base p (dq : bool) :
  origin = [] \/ occurs origin p = false ->
  base = [] \/ occurs base p = false ->
  normalizePath origin base (origin ++ base ++ p) dq
  = normalizePath origin base p dq.
Proof.
  intros Ho Hb. rewrite !normalizePath_tidy.
  rewrite replace_first_at_front, replace_first_at_front.
  now rewrite (replace_first_base_absent origin p Ho),
              (replace_first_base_absent base p Hb).
Qed.

Lemma normalizePath_strips_origin_and_base_witness :
  normalizePath demo_origin (js "/app")
    (demo_origin ++ js "/app" ++ js "/users/42?x=1") false
  = normalizePath demo_origin (js "/app") (js "/users/42?x=1") false.
Proof.
  apply normalizePath_strips_origin_and_base; right; reflexivity.
Defined.

(** X3: with the query dropped, what follows the first question mark does
    not matter: for a path without question mark and without two adjacent
    slashes, in which origin and base (themselves free of question marks) do
    not occur, appending a query changes neither the normalized path nor
    the route [match] returns. *)
Theorem query_is_ignored_by_match
  {Exn App Browser : Type} origin (s : State Exn App Browser) p q :
  has_q origin = false -> has_q (base (options s)) = false ->
  origin = [] \/ occurs origin p = false ->
  base (options s) = [] \/ occurs (base (options s)) p = false ->
  has_q p = false -> occurs (js "//") p = false ->
  normalizePath origin (base (options s)) (p ++ qmark :: q) true
  = normalizePath origin (base (options s)) p true /\
  match_ origin (p ++ qmark :: q) s = match_ origin p s.
Proof.
  rewrite occurs_dslash. intros Qo Qb Ho Hb Hq Hd.
  assert (E : normalizePath origin (base (options s)) (p ++ qmark :: q) true
              = normalizePath origin (base (options s)) p true).
  { rewrite !normalizePath_tidy.
    destruct (replace_first_behind_q origin p q Qo Ho) as [q1 ->].
    destruct (replace_first_behind_q (base (options s)) p q1 Qb Hb) as [q2 ->].
    rewrite (replace_first_base_absent origin p Ho),
            (replace_first_base_absent _ p Hb).
    now apply tidy_ignores_query. }
  split; [exact E|]. unfold match_. now rewrite E.
Qed.

Lemma query_is_ignored_by_match_witness :
  match_ demo_origin (js "/users/42" ++ qmark :: js "tab=a/?b")
         (Demo.with_route "/users/:id" Demo.start)
  = match_ demo_origin (js "/users/42") (Demo.with_route "/users/:id" Demo.start).
Proof.
  apply query_is_ignored_by_match;
    [reflexivity | reflexivity | right; reflexivity | left; reflexivity
    | reflexivity | reflexivity].
Defined.

(** X4: slashes around a path do not matter: for a path without question
    mark, a slash in front and a slash behind leave the result unchanged,
    provided origin and base do not occur in the wrapped path. *)
Theorem normalizePath_ignores_outer_slashes origin base p (dq : bool) :
  has_q p = false ->
  origin = [] \/ occurs origin (slash :: p ++ [slash]) = false ->
  base = [] \/ occurs base (slash :: p ++ [slash]) = false ->
  normalizePath origin base (slash :: p ++ [slash]) dq
  = normalizePath origin base p dq.
Proof.
  intros Hq Ho Hb. rewrite !normalizePath_tidy.
  rewrite (replace_first_base_absent origin _ Ho),
          (replace_first_base_absent base _ Hb).
  rewrite (replace_first_base_absent origin p
             (absent_inside origin [slash] p [slash] Ho)),
          (replace_first_base_absent base p
             (absent_inside base [slash] p [slash] Hb)).
  now apply tidy_ignores_outer_slashes.
Qed.

Lemma normalizePath_ignores_outer_slashes_witness :
  normalizePath demo_origin [] (slash :: js "users/42" ++ [slash]) true
  = normalizePath demo_origin [] (js "users/42") true.
Proof.
  apply normalizePath_ignores_outer_slashes;
    [reflexivity | right; reflexivity | left; reflexivity].
Defined.

(** ** The route table under registration *)

Section TableMore.

Lemma match_from_snoc url r l :
  forall k,
    match_from url (l ++ [r]) k
    = match match_from url l k with
      | Some i => Some i
      | None => if matches (regex r) url then Some (k + List.length l) else None
      end.
Proof.
  induction l as [|x l IH]; intros k; cbn [List.app match_from List.length].
  - rewrite Nat.add_0_r. reflexivity.
  - destruct (matches (regex x) url); [reflexivity|].
    rewrite IH. now rewrite Nat.add_succ_comm.
Qed.

Lemma match_from_bound url l :
  forall k i, match_from url l k = Some i -> k <= i < k + List.length l.
Proof.
  induction l as [|x l IH]; intros k i; cbn [match_from List.length].
  - discriminate.
  - destruct (matches (regex x) url).
    + intros [= <-]. lia.
    + intros H. apply IH in H. lia.
Qed.

End TableMore.

(** X5: registering a route never changes how an already resolved location
    resolves: [add] appends the new route, every location that matched a
    route before still matches the same one, and a location that matched
    none reaches the new route exactly when its pattern accepts it. *)
Theorem add_keeps_earlier_matches
  {Exn App Browser : Type} origin definition_path
  (s s' : State Exn App Browser) :
  add origin definition_path s = Some s' ->
  exists r,
    new_route origin (base (options s)) definition_path = Some r /\
    _routes s' = _routes s ++ [r] /\
    forall p,
      match_ origin p s'
      = match match_ origin p s with
        | Some i => Some i
        | None =>
            if matches (regex r) (normalizePath origin (base (options s)) p true)
            then Some (List.length (_routes s)) else None
        end.
Proof.
  unfold add. destruct (new_route origin (base (options s)) definition_path)
    as [r|]; [|discriminate].
  intros [= <-]. exists r. repeat split. intros p. unfold match_.
  cbn [_routes options with_routes]. apply match_from_snoc.
Qed.

Lemma add_keeps_earlier_matches_witness :
  exists r,
    new_route demo_origin [] (js "/users/:id") = Some r /\
    _routes (Demo.with_route "/users/:id" (Demo.with_route "/users/me" Demo.start))
    = _routes (Demo.with_route "/users/me" Demo.start) ++ [r] /\
    forall p,
      match_ demo_origin p
        (Demo.with_route "/users/:id" (Demo.with_route "/users/me" Demo.start))
      = match match_ demo_origin p (Demo.with_route "/users/me" Demo.start) with
        | Some i => Some i
        | None =>
            if matches (regex r) (normalizePath demo_origin [] p true)
            then Some 1 else None
        end.
Proof.
  exact (add_keeps_earlier_matches demo_origin (js "/users/:id")
           (Demo.with_route "/users/me" Demo.start)
           (Demo.with_route "/users/:id" (Demo.with_route "/users/me" Demo.start))
           eq_refl).
Defined.

(** ** More on the transition engine *)

Section EngineMore.

Variables Exn App Browser : Type.
Variable origin : str.
Variable decodeURIComponent : str -> option str.
Variable URIError : Exn.
Variable pushState : str -> Browser -> Exn + Browser.
Variable setHash : str -> Browser -> Exn + Browser.
Variable location_href : Browser -> str.
Variable location_hash : Browser -> str.

#[local] Abbreviation State := (State Exn App Browser).
#[local] Abbreviation Hook := (Hook Exn App).
#[local] Abbreviation routeChange :=
  (routeChange origin decodeURIComponent URIError pushState setHash).
#[local] Abbreviation change :=
  (change origin decodeURIComponent URIError pushState setHash).
#[local] Abbreviation redirect :=
  (redirect origin decodeURIComponent URIError pushState setHash).
#[local] Abbreviation onPopState :=
  (onPopState origin decodeURIComponent URIError pushState setHash
              location_href location_hash).
#[local] Abbreviation reachable :=
  (reachable origin decodeURIComponent URIError pushState setHash
             location_href location_hash).

Lemma set_snapshot_paths i q p l :
  map path (set_snapshot i q p l) = map path l /\
  map regex (set_snapshot i q p l) = map regex l.
Proof.
  revert i. induction l as [|r l IH]; intros i; [now destruct i|].
  destruct i as [|i]; cbn [set_snapshot map path regex]; [now split|].
  destruct (IH i) as [-> ->]. now split.
Qed.

Lemma set_snapshot_nth i q p l :
  nth_error (set_snapshot i q p l) i
  = option_map (fun r => {| path := path r; regex := regex r;
                            _query := q; _params := p |})
               (nth_error l i) /\
  forall j, j <> i -> nth_error (set_snapshot i q p l) j = nth_error l j.
Proof.
  revert i. induction l as [|r l IH]; intros i.
  - destruct i; split; try reflexivity; intros [|j] _; reflexivity.
  - destruct i as [|i]; cbn [set_snapshot nth_error option_map].
    + split; [reflexivity|]. intros [|j] Hj; [congruence|reflexivity].
    + destruct (IH i) as [I1 I2]. split; [exact I1|].
      intros [|j] Hj; [reflexivity|]. apply I2. congruence.
Qed.

(** What [routeChange] does when it returns normally. *)
Lemma routeChange_commit t (s s' : State) :
  routeChange t s = (s', None) ->
  _active s' = option_map RouteAt (next t) /\
  match next t with
  | None => _routes s' = _routes s
  | Some i =>
      exists q p,
        queryFor decodeURIComponent (location t) = Some q /\
        paramsFor decodeURIComponent origin (base (options s)) (location t)
          (path (nth i (_routes s)
                   {| path := []; regex := []; _query := []; _params := [] |}))
        = Some p /\
        _routes s' = set_snapshot i q p (_routes s)
  end.
Proof.
  unfold Router.routeChange.
  destruct (replace t).
  - destruct (match mode (options (set_prevent true s)) with
              | history => pushState (location t) (browser (set_prevent true s))
              | hash => setHash (location t) (browser (set_prevent true s))
              end) as [e|b]; [discriminate|].
    destruct (next t) as [i|]; [|intros [= <-]; now split].
    destruct (queryFor _ _) as [q|]; [|discriminate].
    cbn [options base set_prevent with_options with_browser _routes].
    destruct (paramsFor _ _ _ _ _) as [p|]; [|discriminate].
    intros [= <-]. split; [reflexivity|]. now exists q, p.
  - destruct (next t) as [i|]; [|intros [= <-]; now split].
    destruct (queryFor _ _) as [q|]; [|discriminate].
    destruct (paramsFor _ _ _ _ _) as [p|]; [|discriminate].
    intros [= <-]. split; [reflexivity|]. now exists q, p.
Qed.

(** What [routeChange] may touch at all. *)
Lemma routeChange_routes t (s : State) :
  let s' := fst (routeChange t s) in
  map path (_routes s') = map path (_routes s) /\
  map regex (_routes s') = map regex (_routes s) /\
  (_active s' = _active s \/ _active s' = option_map RouteAt (next t)) /\
  (replace t = false -> browser s' = browser s /\ options s' = options s).
Proof.
  unfold Router.routeChange.
  destruct (replace t).
  - destruct (match mode (options (set_prevent true s)) with
              | history => pushState (location t) (browser (set_prevent true s))
              | hash => setHash (location t) (browser (set_prevent true s))
              end) as [e|b]; [repeat split; auto; discriminate|].
    destruct (next t) as [i|]; [|repeat split; auto; discriminate].
    destruct (queryFor _ _) as [q|]; [|repeat split; auto; discriminate].
    destruct (paramsFor _ _ _ _ _) as [p|];
      [|repeat split; auto; discriminate].
    cbn [fst _routes with_active with_routes _active].
    destruct (set_snapshot_paths i q p
                (_routes (set_prevent false
                            (with_browser b (set_prevent true s)))))
      as [-> ->].
    repeat split; auto; discriminate.
  - destruct (next t) as [i|]; [|repeat split; auto].
    destruct (queryFor _ _) as [q|]; [|repeat split; auto].
    destruct (paramsFor _ _ _ _ _) as [p|]; [|repeat split; auto].
    cbn [fst _routes with_active with_routes _active].
    destruct (set_snapshot_paths i q p (_routes s)) as [-> ->].
    repeat split; auto.
Qed.

Lemma change_routes (s : State) loc rep :
  let s' := fst (change loc rep s) in
  let t := make_transition origin loc rep s in
  map path (_routes s') = map path (_routes s) /\
  map regex (_routes s') = map regex (_routes s) /\
  (_active s' = _active s \/ _active s' = option_map RouteAt (next t)) /\
  (rep = false -> browser s' = browser s /\ options s' = options s).
Proof.
  intros s' t. subst s'. unfold Router.change. fold t.
  pose proof (run_callbacks_frame _ _ _ (_after s) 0 t s) as F1.
  destruct (run_callbacks (_after s) 0 t s) as [s1 o1].
  cbn [fst] in F1. destruct F1 as (R1 & _ & _ & A1 & O1 & B1 & _).
  destruct o1 as [e1|].
  { cbn [fst]. rewrite R1, A1, O1, B1. repeat split; auto. }
  pose proof (routeChange_routes t (record (Commit t) s1)) as F2.
  cbv zeta in F2.
  destruct (routeChange t (record (Commit t) s1)) as [s2 o2].
  cbn [fst _routes _active browser options record] in F2.
  destruct F2 as (P2 & G2 & A2 & W2).
  change (replace t) with rep in W2.
  rewrite R1 in P2, G2. rewrite A1 in A2. rewrite B1, O1 in W2.
  destruct o2 as [e2|].
  { cbn [fst _routes _active browser options warn].
    exact (conj P2 (conj G2 (conj A2 W2))). }
  pose proof (run_callbacks_frame _ _ _ (_after s2) 0 t s2) as F3.
  destruct (run_callbacks (_after s2) 0 t s2) as [s3 o3].
  cbn [fst] in F3. destruct F3 as (R3 & _ & _ & A3 & O3 & B3 & _).
  assert (G : map path (_routes s3) = map path (_routes s) /\
              map regex (_routes s3) = map regex (_routes s) /\
              (_active s3 = _active s \/
               _active s3 = option_map RouteAt (next t)) /\
              (rep = false -> browser s3 = browser s /\ options s3 = options s)).
  { rewrite R3, A3, O3, B3. exact (conj P2 (conj G2 (conj A2 W2))). }
  destruct o3; exact G.
Qed.

Lemma next_in_table (s : State) loc rep i :
  next (make_transition origin loc rep s) = Some i ->
  i < List.length (_routes s).
Proof.
  unfold make_transition, match_. cbn [next]. intros H.
  apply match_from_bound in H. lia.
Qed.



Lemma run_callbacks_always_fails hs (h : Hook) :
  In h hs ->
  (forall t rs act a, exists a' e, h t rs act a = Threw a' e) ->
  forall i t (s : State), exists e, snd (run_callbacks hs i t s) = Some e.
Proof.
  intros Hin Hf. induction hs as [|c hs IH]; [contradiction|].
  intros i t s. cbn [run_callbacks].
  destruct (c t (_routes (record (Invoked i t) s))
              (_active (record (Invoked i t) s))
              (world (record (Invoked i t) s))) as [a|a e] eqn:E.
  - destruct Hin as [->|Hin].
    + destruct (Hf t (_routes (record (Invoked i t) s))
                  (_active (record (Invoked i t) s))
                  (world (record (Invoked i t) s))) as (a' & e & E').
      congruence.
    + now apply IH.
  - now exists e.
Qed.

(** X8: a callback that always fails keeps every navigation from
    committing: the promise rejects and routes, active route, browser
    state, options and console are untouched. *)
Theorem failing_callback_aborts (s : State) (h : Hook) loc rep :
  In h (_after s) ->
  (forall t rs act a, exists a' e, h t rs act a = Threw a' e) ->
  exists e, snd (change loc rep s) = Rejected e /\
            same_router s (fst (change loc rep s)).
Proof.
  intros Hin Hf. unfold Router.change.
  set (t := make_transition origin loc rep s).
  pose proof (run_callbacks_frame _ _ _ (_after s) 0 t s) as F1.
  destruct (run_callbacks_always_fails (_after s) h Hin Hf 0 t s) as [e E].
  destruct (run_callbacks (_after s) 0 t s) as [s1 o1].
  cbn [snd] in E. subst o1. exists e. split; [reflexivity|exact F1].
Qed.




End EngineMore.

Lemma failing_callback_aborts_witness :
  let s := afterChange (Demo.fail 7) (Demo.with_route "/x" Demo.start) in
  exists e, snd (Demo.change (js "/x") true s) = Rejected e /\
            same_router s (fst (Demo.change (js "/x") true s)).
Proof.
  intros s.
  apply (failing_callback_aborts _ _ _ demo_origin Demo.decode 0 Demo.write
           Demo.write s (Demo.fail 7) (js "/x") true).
  - now left.
  - intros t rs act a. now exists a, 7.
Defined.




(** ** More on query extraction *)

Section QueryMore.

Variable decode : str -> option str.

Lemma split_at_sep c a z :
  forallb (fun x => negb (Ascii.eqb x c)) a = true ->
  split c (a ++ c :: z) = a :: split c z.
Proof.
  induction a as [|x a IH]; cbn [forallb List.app split]; intros H.
  - now rewrite Ascii.eqb_refl.
  - apply andb_prop in H as [Hx Ha]. apply negb_true_iff in Hx.
    rewrite Hx, (IH Ha). reflexivity.
Qed.

Lemma split_no_sep c a :
  forallb (fun x => negb (Ascii.eqb x c)) a = true -> split c a = [a].
Proof.
  induction a as [|x a IH]; cbn [forallb split]; intros H; [reflexivity|].
  apply andb_prop in H as [Hx Ha]. apply negb_true_iff in Hx.
  rewrite Hx, (IH Ha). reflexivity.
Qed.

Lemma join_split_any c s : join [c] (split c s) = s.
Proof.
  induction s as [|x t IH]; [reflexivity|].
  cbn [split]. destruct (Ascii.eqb_spec x c) as [->|Hx].
  - destruct (split c t) as [|h r] eqn:E; [now apply split_not_nil in E|].
    cbn [join List.app] in *. now rewrite IH.
  - destruct (split c t) as [|h r] eqn:E; [now apply split_not_nil in E|].
    rewrite <- IH. destruct r; reflexivity.
Qed.

Lemma no_q_forallb s :
  has_q s = false -> forallb (fun x => negb (Ascii.eqb x qmark)) s = true.
Proof.
  induction s as [|x s IH]; [reflexivity|].
  cbn [has_q existsb forallb]. intros H. apply orb_false_elim in H as [-> H].
  now rewrite IH.
Qed.

Lemma own_none_not_in {V : Type} key (q : Obj.t V) :
  Obj.own key q = None -> ~ In key (map fst q).
Proof.
  induction q as [|[k v] q IH]; cbn [Obj.own map fst In]; [tauto|].
  destruct (Str.eqb k key) eqn:E; [discriminate|].
  intros H [->|Hin]; [|now apply IH].
  now rewrite (proj2 (str_eqb_eq key key) eq_refl) in E.
Qed.

Lemma query_loop_keys params :
  forall q q',
    query_loop decode q params = Some q' ->
    NoDup (map fst q) ->
    (forall k, In k (map fst q) -> Obj.inherited k = false) ->
    NoDup (map fst q') /\
    (forall k, In k (map fst q') -> Obj.inherited k = false).
Proof.
  induction params as [|p rest IH]; intros q q'; cbn [query_loop].
  - intros [= <-]. auto.
  - rewrite query_step_pair. destruct (pair_of decode p) as [[k v]|];
      [|discriminate].
    intros H Hn Hi. apply IH in H; [exact H| |].
    + unfold Obj.is_undefined.
      destruct (Obj.own k q) eqn:E; [exact Hn|].
      destruct (Obj.inherited k); [exact Hn|]. cbn [negb].
      rewrite map_app. cbn [map fst]. apply NoDup_app; [exact Hn| |].
      * constructor; [intros []|constructor].
      * intros x Hx [<-|[]]. now apply (own_none_not_in k q E).
    + unfold Obj.is_undefined.
      destruct (Obj.own k q) eqn:E; [exact Hi|].
      destruct (Obj.inherited k) eqn:Ei; [exact Hi|]. cbn [negb].
      intros x Hx. rewrite map_app in Hx. apply in_app_or in Hx as [Hx|Hx];
        [now apply Hi|].
      destruct Hx as [<-|[]]. exact Ei.
Qed.

Lemma query_loop_fails params :
  forall q,
    query_loop decode q params = None <->
    exists p, In p params /\ pair_of decode p = None.
Proof.
  induction params as [|p rest IH]; intros q; cbn [query_loop].
  - split; [discriminate|]. intros (p & [] & _).
  - rewrite query_step_pair. destruct (pair_of decode p) as [[k v]|] eqn:E.
    + rewrite IH. split.
      * intros (p' & Hin & Hp). exists p'. split; [now right|exact Hp].
      * intros (p' & [<-|Hin] & Hp); [congruence|]. now exists p'.
    + split; [|reflexivity]. intros _. exists p. split; [now left|exact E].
Qed.

Lemma plus_to_space_app a b :
  plus_to_space (a ++ b) = plus_to_space a ++ plus_to_space b.
Proof. apply map_app. Qed.

Lemma plus_to_space_no_equals k :
  forallb (fun x => negb (Ascii.eqb x "=")) k = true ->
  forallb (fun x => negb (Ascii.eqb x "=")) (plus_to_space k) = true.
Proof.
  induction k as [|x k IH]; [reflexivity|].
  cbn [forallb plus_to_space map]. intros H. apply andb_prop in H as [Hx Hk].
  fold (plus_to_space k). rewrite (IH Hk), andb_true_r.
  destruct (Ascii.eqb x "+"); [reflexivity|exact Hx].
Qed.

(** X12: [queryFor] throws exactly when the key or the value of one of
    the pieces between ampersands cannot be decoded; a location without
    question mark yields the empty mapping without decoding anything. *)
Theorem queryFor_throws_iff location :
  (queryFor decode location = None <->
   is_nil (search_of location) = false /\
   exists p, In p (split "&" (search_of location)) /\ pair_of decode p = None) /\
  (has_q location = false -> queryFor decode location = Some []).
Proof.
  split.
  - unfold queryFor. fold (search_of location).
    destruct (is_nil (search_of location)).
    + split; [discriminate|]. now intros [? _].
    + rewrite query_loop_fails. split; [now split|now intros [_ H]].
  - intros H. unfold queryFor. now rewrite H.
Qed.

(** X13: only the text between the first and the second question mark is
    read; what follows a second question mark is ignored. *)
Theorem queryFor_stops_at_second_question_mark a s rest :
  has_q a = false -> has_q s = false ->
  queryFor decode (a ++ qmark :: s ++ qmark :: rest)
  = queryFor decode (a ++ qmark :: s).
Proof.
  intros Ha Hs. unfold queryFor. rewrite !has_q_app_q.
  rewrite !(split_at_sep qmark a) by now apply no_q_forallb.
  rewrite (split_at_sep qmark s) by now apply no_q_forallb.
  rewrite (split_no_sep qmark s) by now apply no_q_forallb.
  reflexivity.
Qed.

(** X14: the mapping [queryFor] returns holds every key once, holds no
    key that names a property of [Object.prototype], and gives every other
    key the value of its first occurrence among the decoded pieces. *)
Theorem queryFor_mapping location q :
  queryFor decode location = Some q ->
  NoDup (map fst q) /\
  (forall k, In k (map fst q) -> Obj.inherited k = false) /\
  exists pairs,
    (if is_nil (search_of location) then Some []
     else decoded_pairs decode (split "&" (search_of location))) = Some pairs /\
    forall key,
      Obj.own key q = if Obj.inherited key then None else Obj.own key pairs.
Proof.
  unfold queryFor. fold (search_of location).
  destruct (is_nil (search_of location)).
  - intros [= <-]. split; [constructor|]. split; [intros k []|].
    exists []. split; [reflexivity|]. intros key.
    now destruct (Obj.inherited key).
  - intros H.
    destruct (query_loop_keys _ _ _ H (NoDup_nil _) (fun k (F : In k []) =>
                match F with end)) as [N I].
    split; [exact N|]. split; [exact I|].
    apply query_loop_first in H as (pairs & Hp & H).
    exists pairs. split; [exact Hp|]. intros key. now rewrite H.
Qed.

(** X15: a piece is cut at its first equals sign: the key is the decoded
    text in front of it, the value the decoded text behind it, further
    equals signs included; a piece without equals sign has the value
    null; a plus sign reads as a space on both sides. *)
Theorem pair_of_cuts_at_first_equals k v :
  forallb (fun x => negb (Ascii.eqb x "=")) k = true ->
  pair_of decode (k ++ "="%char :: v)
  = match decode (plus_to_space k) with
    | None => None
    | Some key =>
        match decode (plus_to_space v) with
        | None => None
        | Some w => Some (key, Some w)
        end
    end /\
  pair_of decode k
  = match decode (plus_to_space k) with
    | None => None
    | Some key => Some (key, None)
    end.
Proof.
  intros Hk. pose proof (plus_to_space_no_equals k Hk) as Hk'.
  unfold pair_of. split.
  - rewrite plus_to_space_app. cbn [plus_to_space map].
    change (Ascii.eqb "=" "+") with false. cbv iota.
    fold (plus_to_space v).
    rewrite (split_at_sep "="%char _ _ Hk'). cbn [hd tl].
    destruct (decode (plus_to_space k)) as [key|]; [|reflexivity].
    destruct (split "=" (plus_to_space v)) as [|h l] eqn:E;
      [now apply split_not_nil in E|].
    rewrite <- E. change (js "=") with ["="%char].
    now rewrite join_split_any.
  - rewrite (split_no_sep "="%char _ Hk'). reflexivity.
Qed.

End QueryMore.

Lemma queryFor_mapping_witness :
  NoDup (map fst [(js "a", Some (js "1")); (js "b", None)]) /\
  (forall k, In k (map fst [(js "a", Some (js "1")); (js "b", (None : option str))]) ->
             Obj.inherited k = false) /\
  exists pairs,
    (if is_nil (search_of (js "/p?a=1&b&a=2")) then Some []
     else decoded_pairs Demo.decode (split "&" (search_of (js "/p?a=1&b&a=2"))))
    = Some pairs /\
    forall key,
      Obj.own key [(js "a", Some (js "1")); (js "b", None)]
      = if Obj.inherited key then None else Obj.own key pairs.
Proof.
  exact (queryFor_mapping Demo.decode (js "/p?a=1&b&a=2")
           [(js "a", Some (js "1")); (js "b", None)] eq_refl).
Defined.

Lemma queryFor_stops_at_second_question_mark_witness :
  queryFor Demo.decode (js "/p" ++ qmark :: js "a=1" ++ qmark :: js "b=2")
  = queryFor Demo.decode (js "/p" ++ qmark :: js "a=1").
Proof.
  apply queryFor_stops_at_second_question_mark; reflexivity.
Defined.

Lemma pair_of_cuts_at_first_equals_witness :
  pair_of Demo.decode (js "a+b" ++ "="%char :: js "x=y+z")
  = Some (js "a b", Some (js "x=y z")) /\
  pair_of Demo.decode (js "a+b") = Some (js "a b", None).
Proof.
  exact (pair_of_cuts_at_first_equals Demo.decode (js "a+b") (js "x=y+z") eq_refl).
Defined.

Lemma queryFor_throws_iff_witness :
  queryFor (fun _ => None) (js "/users/42") = Some [].
Proof.
  apply (proj2 (queryFor_throws_iff (fun _ => None) (js "/users/42"))).
  reflexivity.
Defined.

(** ** Parameter extraction *)

Section ParamsMore.

Variable decode : str -> option str.

Lemma own_update {V : Type} key k (v : V) o :
  Obj.own key (Obj.update k v o)
  = if Str.eqb k key then Some v else Obj.own key o.
Proof.
  induction o as [|[k' w] o IH]; cbn [Obj.update Obj.own]; [reflexivity|].
  destruct (Str.eqb k' k) eqn:E; cbn [Obj.own].
  - apply str_eqb_eq in E. subst k'. now destruct (Str.eqb k key).
  - rewrite IH. destruct (Str.eqb k' key) eqn:E'; [|reflexivity].
    apply str_eqb_eq in E'. subst k'.
    destruct (Str.eqb k key) eqn:E2; [|reflexivity].
    apply str_eqb_eq in E2. subst k.
    now rewrite (proj2 (str_eqb_eq key key) eq_refl) in E.
Qed.

Lemma own_set key k (v : str) o :
  Obj.own key (Obj.set k v o)
  = if Str.eqb k proto then Obj.own key o
    else if Str.eqb k key then Some v else Obj.own key o.
Proof.
  unfold Obj.set. fold proto. destruct (Str.eqb k proto); [reflexivity|].
  apply own_update.
Qed.

Lemma str_eqb_sym a b : Str.eqb a b = Str.eqb b a.
Proof.
  destruct (Str.eqb a b) eqn:E.
  - apply str_eqb_eq in E. subst. symmetry. now apply str_eqb_eq.
  - destruct (Str.eqb b a) eqn:E'; [|reflexivity].
    apply str_eqb_eq in E'. subst.
    now rewrite (proj2 (str_eqb_eq a a) eq_refl) in E.
Qed.

Lemma params_loop_last parts :
  forall url acc params,
    params_loop decode parts url acc = Some params ->
    forall key,
      Obj.own key params
      = match (if Str.eqb key proto then None
               else Obj.own key (rev (captures parts url))) with
        | Some v => decode v
        | None => Obj.own key acc
        end.
Proof.
  induction parts as [|part parts IH]; intros [|value url] acc params;
    cbn [params_loop captures rev];
    try (intros [= <-] key; now destruct (Str.eqb key proto)).
  destruct (starts_with colon part).
  - destruct (decode value) as [v|] eqn:Ev; [|discriminate].
    intros H key. rewrite (IH _ _ _ H key). cbn [rev].
    destruct (Str.eqb key proto) eqn:Ep.
    + rewrite own_set. destruct (Str.eqb (tl part) proto) eqn:E1;
        [reflexivity|].
      destruct (Str.eqb (tl part) key) eqn:E2; [|reflexivity].
      apply str_eqb_eq in E2. congruence.
    + rewrite own_app.
      destruct (Obj.own key (rev (captures parts url))); [reflexivity|].
      rewrite own_set.
      destruct (Str.eqb (tl part) key) eqn:E2.
      * apply str_eqb_eq in E2. rewrite E2, Ep. symmetry. exact Ev.
      * now destruct (Str.eqb (tl part) proto).
  - intros H key. apply (IH _ _ _ H key).
Qed.

Lemma params_loop_fails parts :
  forall url acc,
    params_loop decode parts url acc = None <->
    exists name v, In (name, v) (captures parts url) /\ decode v = None.
Proof.
  induction parts as [|part parts IH]; intros [|value url] acc;
    cbn [params_loop captures];
    try (split; [discriminate|intros (? & ? & [] & _)]).
  destruct (starts_with colon part).
  - destruct (decode value) as [v|] eqn:Ev.
    + rewrite IH. split.
      * intros (n & w & Hin & Hw). exists n, w. split; [now right|exact Hw].
      * intros (n & w & [[= <- <-]|Hin] & Hw); [congruence|]. now exists n, w.
    + split; [|reflexivity]. intros _. exists (tl part), value.
      split; [now left|exact Ev].
  - apply IH.
Qed.

(** X16: parameters are read position by position, among the non-empty
    segments of template and location: the value of a name is the decoded
    location segment facing the last template segment [:name]; a name that
    heads no template segment, and the name [__proto__], get no value. *)
Theorem paramsFor_reads_by_position origin base location match_path params :
  paramsFor decode origin base location match_path = Some params ->
  forall key,
    Obj.own key params
    = if Str.eqb key proto then None
      else match Obj.own key
                   (rev (captures (path_segments origin base match_path)
                                  (path_segments origin base location))) with
           | Some v => decode v
           | None => None
           end.
Proof.
  unfold paramsFor. intros H key.
  rewrite (params_loop_last _ _ _ _ H key).
  destruct (Str.eqb key proto); [reflexivity|].
  now destruct (Obj.own key _).
Qed.

Lemma captures_none parts :
  forallb (fun p => negb (starts_with colon p)) parts = true ->
  forall url, captures parts url = [].
Proof.
  induction parts as [|part parts IH]; intros H [|value url];
    cbn [captures]; try reflexivity.
  cbn [forallb] in H. apply andb_prop in H as [Hp H].
  apply negb_true_iff in Hp. rewrite Hp. now apply IH.
Qed.

Lemma params_loop_no_captures parts :
  forall url acc,
    captures parts url = [] -> params_loop decode parts url acc = Some acc.
Proof.
  induction parts as [|part parts IH]; intros [|value url] acc;
    cbn [params_loop captures]; try reflexivity.
  destruct (starts_with colon part); [discriminate|]. apply IH.
Qed.

(** X17: [paramsFor] throws exactly when a location segment facing a
    template segment that starts with a colon cannot be decoded; for a
    template without such a segment it returns the empty mapping, whatever
    the location and the decoder. *)
Theorem paramsFor_throws_iff origin base location match_path :
  (paramsFor decode origin base location match_path = None <->
   exists name v,
     In (name, v) (captures (path_segments origin base match_path)
                            (path_segments origin base location)) /\
     decode v = None) /\
  (forallb (fun p => negb (starts_with colon p))
           (path_segments origin base match_path) = true ->
   paramsFor decode origin base location match_path = Some []).
Proof.
  unfold paramsFor. split; [apply params_loop_fails|].
  intros H. apply params_loop_no_captures. now apply captures_none.
Qed.

End ParamsMore.

Lemma paramsFor_reads_by_position_witness :
  Obj.own (js "id") [(js "id", js "7")]
  = if Str.eqb (js "id") proto then None
    else match Obj.own (js "id")
                 (rev (captures (path_segments demo_origin [] (js "/users/:id/:id"))
                                (path_segments demo_origin [] (js "/users/42/7?x=1")))) with
         | Some v => Demo.decode v
         | None => None
         end.
Proof.
  exact (paramsFor_reads_by_position Demo.decode demo_origin []
           (js "/users/42/7?x=1") (js "/users/:id/:id") [(js "id", js "7")]
           eq_refl (js "id")).
Defined.

Lemma paramsFor_throws_iff_witness :
  paramsFor (fun _ => None) demo_origin [] (js "/about/%") (js "/about/us")
  = Some [].
Proof.
  apply (proj2 (paramsFor_throws_iff (fun _ => None) demo_origin []
                  (js "/about/%") (js "/about/us"))).
  reflexivity.
Defined.

(** ** The accessors of a route *)

Import Accessors.

Section AccessorFacts.

Lemma letter_no_digit c :
  is_letter c = true -> digit c = None /\ Ascii.eqb c "0" = false.
Proof.
  destruct c as [[] [] [] [] [] [] [] []]; vm_compute; auto; discriminate.
Qed.

Lemma letters_no_index name :
  forallb is_letter name = true -> array_index name = None.
Proof.
  destruct name as [|c rest]; [reflexivity|]. cbn [forallb]. intros H.
  apply andb_prop in H as [Hc _].
  destruct (letter_no_digit c Hc) as [Hd H0].
  unfold array_index. rewrite H0. cbn [andb numeral]. now rewrite Hd.
Qed.

Lemma enumeration_plain {V : Type} (o : Obj.t V) :
  Forall (fun kv => array_index (fst kv) = None) o -> enumeration o = o.
Proof.
  intros H. unfold enumeration.
  assert (F : forall acc,
             fold_left (fun (acc : list (N * (str * V))) kv =>
                          match array_index (fst kv) with
                          | Some n => insert_index n kv acc
                          | None => acc
                          end) o acc = acc).
  { induction H as [|kv o Hkv _ IH]; intros acc; [reflexivity|].
    cbn [fold_left]. rewrite Hkv. apply IH. }
  rewrite F. clear F. cbn [map List.app].
  induction H as [|kv o Hkv _ IH]; [reflexivity|].
  cbn [filter]. rewrite Hkv. now f_equal.
Qed.

Lemma substitute_inert matched before after v :
  inert v = true -> substitute matched before after v = v.
Proof.
  induction v as [|c v IH]; [reflexivity|].
  cbn [inert forallb substitute]. intros H. apply andb_prop in H as [Hc Hv].
  apply andb_prop in Hc as [_ Hc]. apply negb_true_iff in Hc.
  rewrite Hc. f_equal. now apply IH.
Qed.

Lemma skipn_app_exact (a b : str) : skipn (List.length a) (a ++ b) = b.
Proof. induction a as [|x a IH]; [reflexivity|exact IH]. Qed.

Lemma is_prefix_refl_app (a b : str) : is_prefix a (a ++ b) = true.
Proof.
  induction a as [|x a IH]; [reflexivity|].
  cbn [List.app is_prefix]. now rewrite Ascii.eqb_refl.
Qed.

Lemma replace_text_first name v P rest :
  no_colon P = true -> inert v = true ->
  forall seen,
    replace_text (colon :: name) v seen (P ++ colon :: name ++ rest)
    = P ++ v ++ rest.
Proof.
  intros HP Hv. induction P as [|c P IH]; intros seen.
  - cbn [List.app].
    change (colon :: name ++ rest) with ((colon :: name) ++ rest).
    destruct ((colon :: name) ++ rest) as [|y z] eqn:E; [discriminate|].
    cbn [replace_text]. rewrite <- E, is_prefix_refl_app, skipn_app_exact.
    now rewrite substitute_inert.
  - cbn [no_colon forallb] in HP. apply andb_prop in HP as [Hc HP].
    apply negb_true_iff in Hc. cbn [List.app replace_text is_prefix].
    rewrite (Ascii.eqb_sym colon c), Hc. cbn [andb]. f_equal. now apply IH.
Qed.

Lemma lit_no_colon s : forallb lit_char s = true -> no_colon s = true.
Proof.
  induction s as [|c s IH]; [reflexivity|].
  cbn [forallb no_colon]. intros H. apply andb_prop in H as [Hc Hs].
  fold (no_colon s). rewrite (IH Hs), andb_true_r.
  unfold lit_char in Hc. apply andb_prop in Hc as [Hc _].
  now apply andb_prop in Hc as [_ Hc].
Qed.

Lemma inert_no_colon v : inert v = true -> no_colon v = true.
Proof.
  induction v as [|c v IH]; [reflexivity|].
  cbn [inert forallb no_colon]. intros H. apply andb_prop in H as [Hc Hv].
  fold (no_colon v). rewrite (IH Hv), andb_true_r.
  now apply andb_prop in Hc as [Hc _].
Qed.

Lemma no_colon_app a b :
  no_colon a = true -> no_colon b = true -> no_colon (a ++ b) = true.
Proof. unfold no_colon. intros Ha Hb. now rewrite forallb_app, Ha, Hb. Qed.

Lemma fold_fills segs :
  forallb simple_segment segs = true ->
  forall caps P,
    no_colon P = true ->
    map fst caps = capture_names segs ->
    forallb inert (map snd caps) = true ->
    fold_left (fun loc kv => replace_text (colon :: fst kv) (snd kv) [] loc)
              caps (P ++ path_of segs)
    = P ++ path_of (fill segs (map snd caps)).
Proof.
  induction segs as [|s segs IH]; intros Hs caps P HP Hn Hv.
  - destruct caps; [reflexivity|discriminate].
  - cbn [forallb] in Hs. apply andb_prop in Hs as [Hs1 Hs].
    change (path_of (s :: segs)) with (slash :: s ++ path_of segs).
    unfold capture_names in Hn. cbn [filter fill] in *.
    destruct (starts_with colon s) eqn:E.
    + destruct (simple_colon s Hs1 E) as (c & name & -> & Hc & Hl).
      cbn [map tl] in Hn. destruct caps as [|[k v] caps]; [discriminate|].
      cbn [map fst snd forallb] in Hn, Hv. injection Hn as -> Hn.
      apply andb_prop in Hv as [Hv1 Hv]. cbn [fold_left fst snd map].
      change (P ++ slash :: (colon :: c :: name) ++ path_of segs)
        with (P ++ [slash] ++ colon :: (c :: name) ++ path_of segs).
      rewrite app_assoc, replace_text_first;
        [|apply no_colon_app; [exact HP|reflexivity]|exact Hv1].
      rewrite (app_assoc _ v).
      rewrite (IH Hs caps ((P ++ [slash]) ++ v));
        [| |exact Hn|exact Hv].
      * change (path_of (v :: fill segs (map snd caps)))
          with (slash :: v ++ path_of (fill segs (map snd caps))).
        now rewrite <- !app_assoc.
      * apply no_colon_app; [|now apply inert_no_colon].
        apply no_colon_app; [exact HP|reflexivity].
    + change (path_of (s :: fill segs (map snd caps)))
        with (slash :: s ++ path_of (fill segs (map snd caps))).
      change (P ++ slash :: s ++ path_of segs)
        with (P ++ (slash :: s) ++ path_of segs).
      rewrite app_assoc, (IH Hs caps (P ++ slash :: s));
        [now rewrite <- app_assoc| |exact Hn|exact Hv].
      apply no_colon_app; [exact HP|].
      cbn [no_colon forallb]. change (Ascii.eqb slash colon) with false.
      cbn [negb andb]. apply lit_no_colon. now apply simple_not_colon.
Qed.

Lemma capture_names_letters segs :
  forallb simple_segment segs = true ->
  Forall (fun n => array_index n = None) (capture_names segs).
Proof.
  induction segs as [|s segs IH]; [constructor|].
  cbn [forallb]. intros H. apply andb_prop in H as [Hs H].
  unfold capture_names. cbn [filter].
  destruct (starts_with colon s) eqn:E; [|now apply IH].
  cbn [map]. constructor; [|now apply IH].
  destruct (simple_colon s Hs E) as (c & name & -> & Hc & Hl).
  cbn [tl]. apply letters_no_index. cbn [forallb]. now rewrite Hc, Hl.
Qed.

Lemma own_in {V : Type} key (v : V) o :
  Obj.own key o = Some v -> In (key, v) o.
Proof.
  induction o as [|[k w] o IH]; [discriminate|]. cbn [Obj.own].
  destruct (Str.eqb k key) eqn:E.
  - apply str_eqb_eq in E. intros [= ->]. left. now subst.
  - intros H. right. now apply IH.
Qed.

End AccessorFacts.

(** X18: [location()] rebuilds a path from the template: when the template
    is [/s1/.../sn] with every segment a colon followed by letters or plain
    text without colon, and the parameters hold, in order, one value free of
    colons and dollar signs for each capture and no key [hasOwnProperty],
    the result is the template with every capture replaced by its value. *)
Theorem location_fills_the_template (r : Route) (segs : list str) :
  path r = path_of segs ->
  forallb simple_segment segs = true ->
  map fst (_params r) = capture_names segs ->
  forallb inert (map snd (_params r)) = true ->
  Obj.own (js "hasOwnProperty") (_params r) = None ->
  location r = Some (path_of (fill segs (map snd (_params r)))).
Proof.
  intros Hp Hs Hn Hv Hh. unfold location.
  assert (E : enumeration (_params r) = _params r).
  { apply enumeration_plain. pose proof (capture_names_letters segs Hs) as F.
    rewrite <- Hn in F. rewrite Forall_map in F. exact F. }
  rewrite E, Hh, Hp.
  pose proof (fold_fills segs Hs (_params r) [] eq_refl Hn Hv) as F.
  cbn [List.app] in F. rewrite <- F.
  now destruct (_params r).
Qed.

Lemma location_fills_the_template_witness :
  location {| path := js "/users/:id/posts/:post"; regex := []; _query := [];
              _params := [(js "id", js "7"); (js "post", js "a-b")] |}
  = Some (js "/users/7/posts/a-b").
Proof.
  exact (location_fills_the_template
           {| path := js "/users/:id/posts/:post"; regex := []; _query := [];
              _params := [(js "id", js "7"); (js "post", js "a-b")] |}
           [js "users"; js ":id"; js "posts"; js ":post"]
           eq_refl eq_refl eq_refl eq_refl eq_refl).
Defined.

(** X19: read through the accessor, a query name that names a property of
    [Object.prototype] always gives the inherited member, whatever the
    location holds; any other name gives the value of its first occurrence
    (null for a key without equals sign), or [undefined] when it does not
    occur. *)
Theorem query_accessor_after_queryFor
  (decode : str -> option str) (location : str) (r : Route) :
  queryFor decode location = Some (_query r) ->
  exists pairs,
    (if is_nil (search_of location) then Some []
     else decoded_pairs decode (split "&" (search_of location))) = Some pairs /\
    forall name,
      query r (Some name)
      = inr (if Obj.inherited name then Inherited
             else match Obj.own name pairs with
                  | Some v => Own v
                  | None => Undefined
                  end).
Proof.
  intros H. destruct (queryFor_first_occurrence decode location _ H)
    as (pairs & Hp & Hown).
  exists pairs. split; [exact Hp|]. intros name.
  unfold query, get. rewrite Hown.
  destruct (Obj.inherited name); [reflexivity|].
  now destruct (Obj.own name pairs).
Qed.

Lemma query_accessor_after_queryFor_witness :
  exists pairs,
    (if is_nil (search_of (js "/p?toString=1&a&a=2")) then Some []
     else decoded_pairs Demo.decode (split "&" (search_of (js "/p?toString=1&a&a=2"))))
    = Some pairs /\
    forall name,
      query {| path := js "/p"; regex := []; _query := [(js "a", None)];
               _params := [] |} (Some name)
      = inr (if Obj.inherited name then Inherited
             else match Obj.own name pairs with
                  | Some v => Own v
                  | None => Undefined
                  end).
Proof.
  exact (query_accessor_after_queryFor Demo.decode (js "/p?toString=1&a&a=2")
           {| path := js "/p"; regex := []; _query := [(js "a", None)];
              _params := [] |} eq_refl).
Defined.

(** X20: read through the accessor after [paramsFor], a parameter name
    gives the decoded location segment that faces the last template segment
    [:name]; a name that heads no template segment, and the name
    [__proto__], give the inherited member if they name a property of
    [Object.prototype], and [undefined] otherwise. *)
Theorem param_accessor_after_paramsFor
  (decode : str -> option str) origin base (location match_path : str)
  (r : Route) :
  paramsFor decode origin base location match_path = Some (_params r) ->
  forall name,
    param r (Some name)
    = inr (match (if Str.eqb name proto then None
                  else Obj.own name
                         (rev (captures (path_segments origin base match_path)
                                        (path_segments origin base location)))) with
           | Some v => match decode v with
                       | Some w => Own w
                       | None => Undefined
                       end
           | None => if Obj.inherited name then Inherited else Undefined
           end).
Proof.
  unfold paramsFor. intros H name. unfold param, get.
  rewrite (params_loop_last decode _ _ _ _ H name).
  destruct (Str.eqb name proto); [reflexivity|].
  destruct (Obj.own name (rev _)) as [v|] eqn:Eo; [|reflexivity].
  destruct (decode v) as [w|] eqn:Ev; [reflexivity|].
  exfalso. apply own_in, in_rev in Eo.
  assert (N : params_loop decode (path_segments origin base match_path)
                          (path_segments origin base location) [] = None)
    by (apply params_loop_fails; eauto).
  congruence.
Qed.

Lemma param_accessor_after_paramsFor_witness :
  param {| path := js "/users/:id"; regex := []; _query := [];
           _params := [(js "id", js "a-b")] |} (Some (js "id"))
  = inr (Own (js "a-b"))
  /\ param {| path := js "/users/:id"; regex := []; _query := [];
              _params := [(js "id", js "a-b")] |} (Some (js "valueOf"))
     = inr Inherited.
Proof.
  split.
  - exact (param_accessor_after_paramsFor Demo.decode demo_origin []
             (js "/users/a-b") (js "/users/:id")
             {| path := js "/users/:id"; regex := []; _query := [];
                _params := [(js "id", js "a-b")] |} eq_refl (js "id")).
  - exact (param_accessor_after_paramsFor Demo.decode demo_origin []
             (js "/users/a-b") (js "/users/:id")
             {| path := js "/users/:id"; regex := []; _query := [];
                _params := [(js "id", js "a-b")] |} eq_refl (js "valueOf")).
Defined.

Section LocationMore.

Lemma insert_index_not_nil {V : Type} n (kv : str * V) l :
  insert_index n kv l <> [].
Proof. destruct l as [|[m x] l]; cbn; [|destruct (n <? m)%N]; discriminate. Qed.

Lemma indexed_not_nil {V : Type} (o : Obj.t V) :
  forall acc, acc <> [] ->
    fold_left (fun (acc : list (N * (str * V))) kv =>
                 match array_index (fst kv) with
                 | Some n => insert_index n kv acc
                 | None => acc
                 end) o acc <> [].
Proof.
  induction o as [|kv o IH]; intros acc H; [exact H|].
  cbn [fold_left]. apply IH. destruct (array_index (fst kv)); [|exact H].
  apply insert_index_not_nil.
Qed.

Lemma enumeration_nil {V : Type} (o : Obj.t V) :
  enumeration o = [] -> o = [].
Proof.
  destruct o as [|kv o]; [reflexivity|]. unfold enumeration.
  cbn [fold_left filter]. intros H. apply app_eq_nil in H as [H1 H2].
  destruct (array_index (fst kv)); [|discriminate].
  apply map_eq_nil in H1. exfalso. revert H1. apply indexed_not_nil.
  apply insert_index_not_nil.
Qed.

Lemma letters_not_proto name :
  name <> [] -> forallb is_letter name = true -> Str.eqb name proto = false.
Proof.
  destruct name as [|c name]; [congruence|]. intros _ H.
  cbn [forallb] in H. apply andb_prop in H as [Hc _].
  destruct (Str.eqb (c :: name) proto) eqn:E; [|reflexivity].
  apply str_eqb_eq in E. injection E as -> _. discriminate.
Qed.

Lemma update_fresh {V : Type} key (v : V) o :
  ~ In key (map fst o) -> Obj.update key v o = o ++ [(key, v)].
Proof.
  induction o as [|[k w] o IH]; [reflexivity|]. cbn [map fst In Obj.update].
  intros H. destruct (Str.eqb k key) eqn:E.
  - apply str_eqb_eq in E. tauto.
  - cbn [List.app]. f_equal. apply IH. tauto.
Qed.

Variable decode : str -> option str.

(** With distinct capture names, and a location of at least as many
    segments as the template, the loop of [paramsFor] appends one entry
    for each capture, in the order of the template. *)
Lemma params_loop_in_order parts :
  forallb simple_segment parts = true ->
  forall url acc params,
    params_loop decode parts url acc = Some params ->
    List.length parts <= List.length url ->
    NoDup (map fst acc ++ capture_names parts) ->
    exists new,
      params = acc ++ new /\ map fst new = capture_names parts /\
      map (fun kv => Some (snd kv)) new
      = map (fun kv => decode (snd kv)) (captures parts url).
Proof.
  induction parts as [|part parts IH]; intros Hs url acc params H Hl Hn.
  - exists []. destruct url; cbn [params_loop] in H; injection H as <-;
      now rewrite app_nil_r.
  - destruct url as [|value url]; [cbn in Hl; lia|].
    cbn [forallb] in Hs. apply andb_prop in Hs as [Hs1 Hs].
    cbn [List.length] in Hl. apply le_S_n in Hl.
    unfold capture_names in *. cbn [params_loop captures filter] in *.
    destruct (starts_with colon part) eqn:E.
    + destruct (simple_colon part Hs1 E) as (c & name & -> & Hc & Hname).
      cbn [tl map] in *.
      destruct (decode value) as [v|] eqn:Ev; [|discriminate].
      pose proof (NoDup_remove_2 _ _ _ Hn) as Hfresh.
      unfold Obj.set in H. fold proto in H.
      rewrite letters_not_proto in H;
        [|discriminate|cbn [forallb]; now rewrite Hc, Hname].
      rewrite update_fresh in H
        by (intros Hin; apply Hfresh, in_or_app; now left).
      destruct (IH Hs url _ params H Hl) as (new & -> & Hk & Hv).
      { rewrite map_app, <- app_assoc. exact Hn. }
      exists ((c :: name, v) :: new). rewrite <- app_assoc.
      split; [reflexivity|]. cbn [map fst snd]. rewrite Hk, Hv, Ev.
      now split.
    + apply (IH Hs url acc params H Hl Hn).
Qed.

End LocationMore.

(** X21: [location()] throws exactly when the parameters hold an own key
    [hasOwnProperty]: the call [params.hasOwnProperty(key)] then finds a
    string where it expects the inherited function. *)
Theorem location_throws_iff (r : Route) :
  location r = None <-> Obj.own (js "hasOwnProperty") (_params r) <> None.
Proof.
  unfold location. split.
  - destruct (enumeration (_params r)); [discriminate|].
    destruct (Obj.own _ (_params r)); [discriminate|discriminate].
  - intros H. destruct (enumeration (_params r)) eqn:E.
    + apply enumeration_nil in E. rewrite E in H. now contradiction H.
    + destruct (Obj.own _ (_params r)); [reflexivity|now contradiction H].
Qed.

Lemma location_throws_iff_witness :
  location {| path := js "/:hasOwnProperty"; regex := []; _query := [];
              _params := [(js "hasOwnProperty", js "x")] |} = None.
Proof.
  apply (proj2 (location_throws_iff
                  {| path := js "/:hasOwnProperty"; regex := []; _query := [];
                     _params := [(js "hasOwnProperty", js "x")] |})).
  discriminate.
Defined.

(** X22: [location()] undoes [paramsFor]: for a template of plain segments
    and captures with distinct names, none of them [hasOwnProperty], and a
    location with at least as many segments, the parameters hold one entry
    for each capture in template order, each the decoded segment it faces;
    if these values hold no colon and no dollar sign, [location()] is the
    template with every capture replaced by its value. *)
Theorem location_after_paramsFor
  (decode : str -> option str) origin base (loc : str) (r : Route)
  (segs : list str) :
  path r = path_of segs ->
  path_segments origin base (path r) = segs ->
  forallb simple_segment segs = true ->
  NoDup (capture_names segs) ->
  ~ In (js "hasOwnProperty") (capture_names segs) ->
  List.length segs <= List.length (path_segments origin base loc) ->
  paramsFor decode origin base loc (path r) = Some (_params r) ->
  map fst (_params r) = capture_names segs /\
  map (fun kv => Some (snd kv)) (_params r)
  = map (fun kv => decode (snd kv))
        (captures segs (path_segments origin base loc)) /\
  (forallb inert (map snd (_params r)) = true ->
   location r = Some (path_of (fill segs (map snd (_params r))))).
Proof.
  intros Hp Hsegs Hs Hn Hh Hl H. unfold paramsFor in H. rewrite Hsegs in H.
  destruct (params_loop_in_order decode segs Hs _ [] _ H Hl Hn)
    as (new & E & Hk & Hv).
  cbn [List.app] in E. subst new. repeat split; [exact Hk|exact Hv|].
  intros Hi. unfold location.
  assert (En : enumeration (_params r) = _params r).
  { apply enumeration_plain. pose proof (capture_names_letters segs Hs) as F.
    rewrite <- Hk in F. rewrite Forall_map in F. exact F. }
  assert (Ho : Obj.own (js "hasOwnProperty") (_params r) = None).
  { destruct (Obj.own _ (_params r)) as [v|] eqn:Eo; [|reflexivity].
    apply own_in, (in_map fst) in Eo. rewrite Hk in Eo. contradiction. }
  rewrite En, Ho, Hp.
  pose proof (fold_fills segs Hs (_params r) [] eq_refl Hk Hi) as F.
  cbn [List.app] in F. rewrite <- F. now destruct (_params r).
Qed.

Lemma location_after_paramsFor_witness :
  let r := {| path := js "/users/:id/posts/:post"; regex := []; _query := [];
              _params := [(js "id", js "7"); (js "post", js "a-b")] |} in
  map fst (_params r) = [js "id"; js "post"] /\
  location r = Some (js "/users/7/posts/a-b").
Proof.
  intros r.
  destruct (location_after_paramsFor Demo.decode demo_origin []
              (js "/USERS/7/posts/a-b?x=1") r
              [js "users"; js ":id"; js "posts"; js ":post"]
              eq_refl eq_refl eq_refl) as (K & _ & L).
  - change (NoDup [js "id"; js "post"]).
    constructor; [vm_compute; intuition discriminate|].
    constructor; [vm_compute; tauto|constructor].
  - vm_compute. intuition discriminate.
  - vm_compute. lia.
  - reflexivity.
  - split; [exact K|exact (L eq_refl)].
Defined.

(** ** HTTP requests *)

Section HttpFacts.

Import Http.

Variables Exn World FormData Json Response Init : Type.
Variable TypeError : Exn.
Variable no_init : Init.
Variable encodeURIComponent : str -> str.
Variable JSON_stringify : Data FormData -> str.
Variable JSON_parse : str -> option Json.
Variable ok : Response -> bool.
Variable fetch :
  str -> FetchOptions FormData Init -> World -> Awaited Exn World Response.
Variable text : Response -> World -> Awaited Exn World str.

#[local] Abbreviation State := (Http.State Exn World FormData Json Response Init).
#[local] Abbreviation RequestObject := (Http.RequestObject FormData Init).
#[local] Abbreviation request :=
  (Http.request TypeError no_init encodeURIComponent JSON_stringify
                JSON_parse ok fetch text).
#[local] Abbreviation prepare :=
  (Http.prepare encodeURIComponent JSON_stringify).
#[local] Abbreviation parse := (Http.parse JSON_parse).
#[local] Abbreviation query_of := (Http.query_of encodeURIComponent).

Lemma run_app {A : Type} (l1 l2 : list (A -> World -> Awaited Exn World A)) :
  forall this w,
    run (l1 ++ l2) this w
    = match run l1 this w with
      | Settled w' this' => run l2 this' w'
      | Thrown w' e => Thrown w' e
      end.
Proof.
  induction l1 as [|c l1 IH]; intros this w; [reflexivity|].
  cbn [List.app run]. destruct (c this w); [apply IH|reflexivity].
Qed.

(** The request as [request] builds it from its arguments. *)
#[local] Abbreviation fresh m u d h :=
  ({| method := m; url := u; data := d; headers := h; body := BUndefined;
      init := no_init |}).

Lemma request_network m u d h (s : State) w r1 r2 o :
  run (_before s) (fresh m u d h) (world s) = Settled w r1 ->
  prepare r1 = Some (r2, o) ->
  network (fst (request m u d h s)) = network s ++ [(url r2, o)].
Proof.
  intros Hb Hp. unfold Http.request. rewrite Hb, Hp.
  destruct (fetch (url r2) o w) as [w1 resp|w1 e]; [|reflexivity].
  destruct (text resp w1) as [w2 t|w2 e]; [|reflexivity].
  now destruct (run _ _ w2).
Qed.

(** X23: a request is fulfilled only through one call of [fetch] whose
    response is ok, and with the body of that response: the value parsed
    from its text, or the text itself when it is no JSON.  No interceptor
    can replace the value. *)
Theorem request_resolves_from_ok_response m u d h (s s' : State) b :
  request m u d h s = (s', Resolves b) ->
  exists u' o w w' w'' response t,
    network s' = network s ++ [(u', o)] /\
    fetch u' o w = Settled w' response /\ ok response = true /\
    text response w' = Settled w'' t /\ b = parse t.
Proof.
  unfold Http.request.
  destruct (run (_before s) _ (world s)) as [w r1|w e]; [|discriminate].
  destruct (prepare r1) as [[r2 o]|]; [|discriminate].
  destruct (fetch (url r2) o w) as [w1 resp|w1 e] eqn:Ef; [|discriminate].
  destruct (text resp w1) as [w2 t|w2 e] eqn:Et; [|discriminate].
  destruct (run _ _ w2) as [w3 det|w3 e]; [|discriminate].
  destruct (ok resp) eqn:Eo; [|discriminate].
  intros [= <- <-]. now exists (url r2), o, w, w1, w2, resp, t.
Qed.

(** X24: a request is rejected with details only after a call of
    [fetch] whose response is not ok and after every interceptor of
    [_after] has run without throwing; the details are those the
    interceptors leave. *)
Theorem request_rejects_with_details m u d h (s s' : State) details :
  request m u d h s = (s', Rejects (NotOk details)) ->
  exists r o w w' w'' response t,
    network s' = network s ++ [(url r, o)] /\
    fetch (url r) o w = Settled w' response /\ ok response = false /\
    text response w' = Settled w'' t /\
    run (_after s) {| details_request := r; details_response := response;
                      details_body := parse t |} w''
    = Settled (world s') details.
Proof.
  unfold Http.request.
  destruct (run (_before s) _ (world s)) as [w r1|w e]; [|discriminate].
  destruct (prepare r1) as [[r2 o]|]; [|discriminate].
  destruct (fetch (url r2) o w) as [w1 resp|w1 e] eqn:Ef; [|discriminate].
  destruct (text resp w1) as [w2 t|w2 e] eqn:Et; [|discriminate].
  cbn [_after sent].
  destruct (run _ _ w2) as [w3 det|w3 e] eqn:Er; [|discriminate].
  destruct (ok resp) eqn:Eo; [discriminate|].
  intros [= <- <-]. now exists r2, o, w, w1, w2, resp, t.
Qed.

(** X25: a request whose method is not GET, with headers undefined or
    null, no body and data that is no [FormData], is rejected with a
    [TypeError] before anything is fetched: the content type is written
    into headers that do not exist. *)
Theorem request_without_headers_throws m u d h (s : State) w r :
  run (_before s) (fresh m u d h) (world s) = Settled w r ->
  Str.eqb (method r) (js "GET") = false ->
  body r = BUndefined \/ body r = BNull ->
  (forall f, data r <> DForm f) ->
  headers r = HUndefined \/ headers r = HNull ->
  request m u d h s = (with_world w s, Rejects (Error TypeError)).
Proof.
  intros Hb Hm Hbody Hd Hh. unfold Http.request. rewrite Hb.
  unfold Http.prepare. rewrite Hm. cbn [negb].
  destruct Hbody as [-> | ->], Hh as [-> | ->];
    destruct (data r) as [| | |f|]; try reflexivity;
    now contradiction (Hd f).
Qed.

(** X26: a GET request leaves headers and body as the interceptors left
    them and fetches the URL followed by a question mark and the query,
    or the URL itself when the query is empty. *)
Theorem get_appends_the_query m u d h (s : State) w r :
  run (_before s) (fresh m u d h) (world s) = Settled w r ->
  method r = js "GET" ->
  network (fst (request m u d h s))
  = network s
    ++ [(if is_nil (query_of (data r)) then url r
         else url r ++ js "?" ++ query_of (data r),
         {| fetch_method := js "GET"; fetch_headers := headers r;
            fetch_body := body r; fetch_init := init r |})].
Proof.
  intros Hb Hm.
  rewrite (request_network m u d h s w r
             (if is_nil (query_of (data r)) then r
              else with_url (url r ++ js "?" ++ query_of (data r)) r)
             {| fetch_method := js "GET"; fetch_headers := headers r;
                fetch_body := body r; fetch_init := init r |} Hb).
  - now destruct (is_nil (query_of (data r))).
  - unfold Http.prepare. now rewrite Hm.
Qed.

(** X27: a request whose method is not GET, with no body, data that is
    no [FormData] and headers that are an object, fetches its URL
    unchanged with the data as JSON text and with [Content-Type] set to
    JSON, whatever the headers held under that name; every other header
    is left as it was. *)
Theorem json_body_sets_content_type m u d h (s : State) w r hs :
  run (_before s) (fresh m u d h) (world s) = Settled w r ->
  Str.eqb (method r) (js "GET") = false ->
  body r = BUndefined \/ body r = BNull ->
  (forall f, data r <> DForm f) ->
  headers r = HObject hs ->
  exists hs',
    network (fst (request m u d h s))
    = network s
      ++ [(url r,
           {| fetch_method := method r; fetch_headers := HObject hs';
              fetch_body := match data r with
                            | DUndefined => BUndefined
                            | x => BString (JSON_stringify x)
                            end;
              fetch_init := init r |})] /\
    forall key,
      Obj.own key hs'
      = if Str.eqb (js "Content-Type") key then Some content_type
        else Obj.own key hs.
Proof.
  intros Hb Hm Hbody Hd Hh.
  exists (Obj.set (js "Content-Type") content_type hs). split.
  - rewrite (request_network m u d h s w r
               (with_headers (HObject (Obj.set (js "Content-Type")
                                               content_type hs)) r)
               {| fetch_method := method r;
                  fetch_headers := HObject (Obj.set (js "Content-Type")
                                                    content_type hs);
                  fetch_body := match data r with
                                | DUndefined => BUndefined
                                | x => BString (JSON_stringify x)
                                end;
                  fetch_init := init r |} Hb); [reflexivity|].
    unfold Http.prepare. rewrite Hm, Hh. cbn [negb].
    destruct Hbody as [-> | ->];
      destruct (data r) as [| | |f|]; try reflexivity;
      now contradiction (Hd f).
  - intros key. now rewrite own_set.
Qed.

(** X28: when an interceptor of [_before] throws, the request is
    rejected with what it threw; the interceptors after it do not run
    and nothing is fetched. *)
Theorem failing_interceptor_sends_nothing m u d h (s : State)
  pre callback rest w r w' e :
  _before s = pre ++ callback :: rest ->
  run pre (fresh m u d h) (world s) = Settled w r ->
  callback r w = Thrown w' e ->
  request m u d h s = (with_world w' s, Rejects (Error e)).
Proof.
  intros Hs Hp Hc. unfold Http.request.
  rewrite Hs, (run_app pre (callback :: rest)), Hp. cbn [run].
  now rewrite Hc.
Qed.

End HttpFacts.

Section HttpExamples.

Import Http HttpDemo.

#[local] Abbreviation host T :=
  (T nat (list nat) unit str Response unit 0 tt (fun s : str => s)
     JSON_stringify JSON_parse (@fst bool str) fetch text).

#[local] Abbreviation fresh m u d h :=
  ({| method := js m; url := js u; data := d; headers := h;
      body := BUndefined; init := tt |}).

Lemma request_resolves_from_ok_response_witness :
  exists u' o w w' w'' response t,
    network (fst (get 0 tt (fun s => s) JSON_stringify JSON_parse fst fetch
                      text (js "/ok") DUndefined HUndefined start))
    = network start ++ [(u', o)] /\
    fetch u' o w = Settled w' response /\ fst response = true /\
    text response w' = Settled w'' t /\
    Text (js "/ok") = parse JSON_parse t.
Proof.
  exact (host request_resolves_from_ok_response (js "GET") (js "/ok")
              DUndefined HUndefined start _ _ eq_refl).
Defined.

Lemma request_rejects_with_details_witness :
  let s' := fst (request (js "GET") (js "/missing") DUndefined HUndefined
                         start) in
  exists r o w w' w'' response t,
    network s' = network start ++ [(url r, o)] /\
    fetch (url r) o w = Settled w' response /\ fst response = false /\
    text response w' = Settled w'' t /\
    run (_after start)
        {| details_request := r; details_response := response;
           details_body := parse JSON_parse t |} w''
    = Settled (world s')
              {| details_request := fresh "GET" "/missing" DUndefined HUndefined;
                 details_response := (false, js "/missing");
                 details_body := Text (js "/missing") |}.
Proof.
  exact (host request_rejects_with_details (js "GET") (js "/missing")
              DUndefined HUndefined start _ _ eq_refl).
Defined.

Lemma request_without_headers_throws_witness :
  post 0 tt (fun s => s) JSON_stringify JSON_parse fst fetch text
       (js "/ok") (DObject [(js "a", js "1")]) HUndefined
       (interceptBefore (mark 1) start)
  = (with_world [1] (interceptBefore (mark 1) start), Rejects (Error 0)).
Proof.
  apply (host request_without_headers_throws (js "POST") (js "/ok")
              (DObject [(js "a", js "1")]) HUndefined
              (interceptBefore (mark 1) start) [1]
              (fresh "POST" "/ok" (DObject [(js "a", js "1")]) HUndefined)
              eq_refl eq_refl (or_introl eq_refl)).
  - intros f. discriminate.
  - left. reflexivity.
Defined.

Lemma get_appends_the_query_witness :
  network (fst (request (js "GET") (js "/users")
                        (DObject [(js "b", js "2"); (js "1", js "x")])
                        HUndefined start))
  = [(js "/users?1=x&b=2",
      {| fetch_method := js "GET"; fetch_headers := HUndefined;
         fetch_body := BUndefined; fetch_init := tt |})].
Proof.
  exact (host get_appends_the_query (js "GET") (js "/users")
              (DObject [(js "b", js "2"); (js "1", js "x")]) HUndefined
              start []
              (fresh "GET" "/users"
                     (DObject [(js "b", js "2"); (js "1", js "x")])
                     HUndefined)
              eq_refl eq_refl).
Defined.

Lemma json_body_sets_content_type_witness :
  exists hs',
    network (fst (request (js "PUT") (js "/api") (DObject [])
                          (HObject [(js "Content-Type", js "text/plain");
                                    (js "accept", js "*")]) start))
    = [(js "/api",
        {| fetch_method := js "PUT"; fetch_headers := HObject hs';
           fetch_body := BString (js "{}"); fetch_init := tt |})] /\
    forall key,
      Obj.own key hs'
      = if Str.eqb (js "Content-Type") key then Some content_type
        else Obj.own key [(js "Content-Type", js "text/plain");
                          (js "accept", js "*")].
Proof.
  apply (host json_body_sets_content_type (js "PUT") (js "/api")
              (DObject [])
              (HObject [(js "Content-Type", js "text/plain");
                        (js "accept", js "*")]) start []
              (fresh "PUT" "/api" (DObject [])
                     (HObject [(js "Content-Type", js "text/plain");
                               (js "accept", js "*")]))
              [(js "Content-Type", js "text/plain"); (js "accept", js "*")]
              eq_refl eq_refl (or_introl eq_refl)).
  - intros f. discriminate.
  - reflexivity.
Defined.

Lemma failing_interceptor_sends_nothing_witness :
  let s := interceptBefore (mark 2)
             (interceptBefore (fail 7) (interceptBefore (mark 1) start)) in
  request (js "GET") (js "/ok") DUndefined HUndefined s
  = (with_world [1] s, Rejects (Error 7)).
Proof.
  exact (host failing_interceptor_sends_nothing (js "GET") (js "/ok")
              DUndefined HUndefined
              (interceptBefore (mark 2)
                 (interceptBefore (fail 7) (interceptBefore (mark 1) start)))
              [mark 1] (fail 7) [mark 2] [1]
              (fresh "GET" "/ok" DUndefined HUndefined) [1] 7
              eq_refl eq_refl eq_refl).
Defined.

End HttpExamples.
